(** * Ensemble: score timeline engine

    A shallow embedding of the computational core of the Ensemble
    collaborative score editor (public/js/renderer.js, editor.js,
    beginner-renderer.js, playback.js and server.js) together with the
    properties its specification states about it.

    Conventions of the embedding
    - JavaScript numbers that carry beats, pixels, staff positions and the
      automation times of one note's envelope are modelled as exact
      rationals ([Q]); integers such as measure numbers and diatonic
      indices as [Z].  Every constant of the source (0.001, 0.25, 0.04,
      ...) is the rational it denotes; beats on the sixteenth grid are
      exact in both.  Frequencies are real numbers ([R]).
    - The playback schedule, the start and length [play] hands to the
      scheduler for each note, is computed in IEEE double precision
      ([float]), operation by operation as [play] does it.
    - A variable meant to hold a number can also end up holding something
      else ([JsNum]): a function inherited from [Object.prototype], a string
      made by adding to one, or NaN.
    - Loops that JavaScript runs until a condition fails take a [fuel]
      bound and return [None] when it runs out.
    - JavaScript strings are [string]; [null]/[undefined] results are
      [option].
    - Plain objects used as dictionaries are [gmap string _] for their own
      properties; a lookup with a key read from the store also sees the
      properties inherited from [Object.prototype] ([inherited]).
    - Arrays are lists; [push] appends at the end.
    - Calls to the network layer are recorded as values of [ApiCall]. *)

From Stdlib Require Import Ascii String QArith Qround Qabs Lqa Reals.
From Stdlib Require Import PrimFloat SpecFloat FloatOps.
From stdpp Require Import gmap strings list fin_maps pretty sorting.

Local Open Scope Z_scope.

(** ** JavaScript string helpers *)

Definition in_range (lo hi : N) (c : ascii) : bool :=
  ((lo <=? N_of_ascii c) && (N_of_ascii c <=? hi))%N.

(** The character class [[A-G]]. *)
Definition is_note_letter (c : ascii) : bool := in_range 65 71 c.

(** The character class [\d]. *)
Definition is_digit (c : ascii) : bool := in_range 48 57 c.

(** The alternation [(#|b)]. *)
Definition is_acc_char (c : ascii) : bool :=
  (N_of_ascii c =? 35)%N || (N_of_ascii c =? 98)%N.

Definition str1 (c : ascii) : string := String c EmptyString.

(** ** renderer.js: key signatures and accidentals *)

Definition sharps : list string := ["F"; "C"; "G"; "D"; "A"; "E"; "B"]%string.
Definition flats : list string := ["B"; "E"; "A"; "D"; "G"; "C"; "F"]%string.

(** The object literal [map] of [getKeyAccidentals]. *)
Definition KEY_FIFTHS : gmap string Z :=
  list_to_map
    [("C", 0); ("G", 1); ("D", 2); ("A", 3); ("E", 4); ("B", 5);
     ("F#", 6); ("C#", 7);
     ("F", -1); ("Bb", -2); ("Eb", -3); ("Ab", -4); ("Db", -5);
     ("Gb", -6); ("Cb", -7)]%string.

(** [for (let i = 0; i < n; i++) result[names[i]] = acc], for [n]
    within the table. *)
Definition mark_first (n : Z) (names : list string) (acc : string)
    (result : gmap string string) : gmap string string :=
  foldl (fun m l => <[l := acc]> m) result (take (Z.to_nat n) names).

Definition getKeyAccidentals (key : string) : gmap string string :=
  let n := default 0 (KEY_FIFTHS !! key) in
  let result : gmap string string := ∅ in
  let result := if 0 <? n then mark_first n sharps "#" result else result in
  let result := if n <? 0 then mark_first (- n) flats "b" result else result in
  result.

(** [pitch.match(/^[A-G](#|b)?/)]: the captured accidental, [''] when the
    match fails or the group is absent. *)
Definition pitchAccidental (pitch : string) : string :=
  match pitch with
  | String c rest =>
      if is_note_letter c then
        match rest with
        | String a _ => if is_acc_char a then str1 a else EmptyString
        | EmptyString => EmptyString
        end
      else EmptyString
  | EmptyString => EmptyString
  end.

(** [pitch[0]].  On the empty string the index is [undefined]; used as a
    property key it reads the key ["undefined"]. *)
Definition pitchLetter (pitch : string) : string :=
  match pitch with
  | String c _ => str1 c
  | EmptyString => "undefined"
  end.

(** [keyAccidentals[letter] || '']. *)
Definition keyAccOf (keyAccidentals : gmap string string) (letter : string)
    : string :=
  default EmptyString (keyAccidentals !! letter).

Definition displayAccidental (pitch : string)
    (keyAccidentals : gmap string string) : option string :=
  let letter := pitchLetter pitch in
  let acc := pitchAccidental pitch in
  let keyAcc := keyAccOf keyAccidentals letter in
  if String.eqb acc keyAcc then None
  else if String.eqb acc "#" then Some "#"%string
  else if String.eqb acc "b" then Some "b"%string
  else if String.eqb acc EmptyString && negb (String.eqb keyAcc EmptyString)
  then Some "n"%string
  else None.

(** ** renderer.js: duration tables *)

Local Open Scope Q_scope.

Definition DUR_TO_VEX : gmap string string :=
  list_to_map
    [("whole", "w"); ("half", "h"); ("quarter", "q"); ("eighth", "8");
     ("sixteenth", "16")]%string.

Definition DUR_TO_BEATS : gmap string Q :=
  list_to_map
    [("whole"%string, 4); ("half"%string, 2); ("quarter"%string, 1);
     ("eighth"%string, 1 # 2); ("sixteenth"%string, 1 # 4)].

Definition REST_DURATIONS : list (Q * string) :=
  [(4, "w"%string); (2, "h"%string); (1, "q"%string); (1 # 2, "8"%string);
   (1 # 4, "16"%string)].

(** The tolerance [0.001] used by every beat comparison. *)
Definition EPS : Q := 1 # 1000.

(** [a > b] and [a >= b] on numbers. *)
Definition Qgtb (a b : Q) : bool := negb (Qle_bool a b).
Definition Qgeb (a b : Q) : bool := Qle_bool b a.

(** ** Notes as the store returns them *)

Record Note := mkNote {
  note_id : string;
  note_instrument_id : string;
  note_pitch : string;
  note_measure : Z;
  note_beat : Q;
  note_duration : string;
  note_is_rest : bool;
  note_accidental : option string;
  note_dynamic : string;
  note_session_id : option string;
}.

(** ** Lookups on object literals *)

(** The property names every object literal inherits from
    [Object.prototype].  For such a key [k] that the literal does not define
    itself, [T[k]] is the inherited function (the prototype object itself
    for [__proto__]): a truthy value, so [T[k] || d] does not take [d]. *)
Definition OBJECT_PROTOTYPE : list string :=
  ["constructor"; "__defineGetter__"; "__defineSetter__"; "hasOwnProperty";
   "__lookupGetter__"; "__lookupSetter__"; "isPrototypeOf";
   "propertyIsEnumerable"; "toString"; "valueOf"; "__proto__";
   "toLocaleString"]%string.

Definition inherited (k : string) : bool :=
  bool_decide (k ∈ OBJECT_PROTOTYPE).

(** What a variable meant to hold a number holds. *)
Inductive JsNum :=
| Num (q : Q)
  (** a function or object inherited from [Object.prototype] *)
| Obj
  (** a string that contains the text of such an object, as [1 + Obj]
      gives; whatever is appended to it, it does not read as a number *)
| Text
| NaN.

(** [a + b]: addition of numbers; with an object or a string on either
    side, concatenation. *)
Definition jsAdd (a b : JsNum) : JsNum :=
  match a, b with
  | Num x, Num y => Num (x + y)
  | Num _, NaN | NaN, Num _ | NaN, NaN => NaN
  | _, _ => Text
  end.

(** [a - b]: both sides are converted to numbers; an object and a string
    of [Text] convert to NaN. *)
Definition jsSub (a b : JsNum) : JsNum :=
  match a, b with
  | Num x, Num y => Num (x - y)
  | _, _ => NaN
  end.

(** [a > b] with a number on the right, and with a number on the left: the
    other side is converted to a number, and a comparison with NaN is
    false. *)
Definition jsGtNum (a : JsNum) (b : Q) : bool :=
  match a with
  | Num x => Qgtb x b
  | _ => false
  end.

Definition numGtJs (a : Q) (b : JsNum) : bool :=
  match b with
  | Num y => Qgtb a y
  | _ => false
  end.

(** [DUR_TO_BEATS[d] || dflt] (and the same on [DUR_BEATS], a copy of the
    table).  Every entry of the table is non-zero, so among the keys the
    table holds or that name no property the alternative is taken exactly
    on a miss; an inherited key yields the inherited object. *)
Definition beatsOr (dflt : Q) (d : string) : JsNum :=
  match DUR_TO_BEATS !! d with
  | Some q => Num q
  | None => if inherited d then Obj else Num dflt
  end.

(** [DUR_TO_BEATS[d] || dflt] where the client chose the key [d] itself:
    the duration selected in the toolbar, or a name [_beatsToDuration]
    returned.  Such a key is one of the five names of the table. *)
Definition durBeatsOr (dflt : Q) (d : string) : Q :=
  default dflt (DUR_TO_BEATS !! d).

(** The [duration] a stave note is built with: a string, or what the
    lookup of an inherited key gives, the inherited object or its text
    followed by a suffix. *)
Inductive VexDuration :=
| VexCode (code : string)
| VexObj (key : string)
| VexObjText (key suffix : string).

(** [vexDur + 'r']. *)
Definition vexAppend (vexDur : VexDuration) (suffix : string) : VexDuration :=
  match vexDur with
  | VexCode code => VexCode (code ++ suffix)
  | VexObj key => VexObjText key suffix
  | VexObjText key s => VexObjText key (s ++ suffix)
  end.

(** [DUR_TO_VEX[d] || 'q']; no code of the table is empty. *)
Definition durVexOr (d : string) : VexDuration :=
  match DUR_TO_VEX !! d with
  | Some code => VexCode code
  | None => if inherited d then VexObj d else VexCode "q"
  end.

(** ** renderer.js: measure completion *)

(** What [new VF.StaveNote({...})] is given, plus the accidental modifier
    and the [_ensembleId] tag the caller attaches afterwards. *)
Record StaveNote := mkStaveNote {
  sn_clef : string;
  sn_keys : list string;
  sn_duration : VexDuration;
  sn_auto_stem : bool;
  sn_accidental : option string;
  sn_ensembleId : option string;
}.

(** ["D5"] to ["d/5"]: [pitch.match(/^([A-G])(#|b)?(\d)$/)]. *)
Definition match_pitch (pitch : string) : option (ascii * string * ascii) :=
  match pitch with
  | String l (String o EmptyString) =>
      if is_note_letter l && is_digit o then Some (l, EmptyString, o) else None
  | String l (String a (String o EmptyString)) =>
      if is_note_letter l && is_acc_char a && is_digit o
      then Some (l, str1 a, o) else None
  | _ => None
  end.

Definition toLowerCase (c : ascii) : ascii :=
  if in_range 65 90 c then ascii_of_N (N_of_ascii c + 32) else c.

Definition pitchToVexKey (pitch : string) : string :=
  match match_pitch pitch with
  | None => "b/4"%string
  | Some (l, _, o) => String (toLowerCase l) (String "/" (str1 o))
  end.

Definition restPosition (clef : string) : string :=
  if String.eqb clef "treble" then "b/4"%string
  else if String.eqb clef "alto" then "c/4"%string
  else if String.eqb clef "bass" then "d/3"%string
  else "b/4"%string.

Definition restNote (clef durVex : string) : StaveNote :=
  {| sn_clef := clef; sn_keys := [restPosition clef];
     sn_duration := VexCode (durVex ++ "r"); sn_auto_stem := false;
     sn_accidental := None; sn_ensembleId := None |}.

(** The inner [while (rem >= durBeats - 0.001)] loop of [pushRests]; the
    state is the array and the local [rem]. *)
Fixpoint restWhile (fuel : nat) (clef : string) (durBeats : Q)
    (durVex : string) (arr : list StaveNote) (rem : Q)
    : option (list StaveNote * Q) :=
  match fuel with
  | O => None
  | S fuel' =>
      if Qgeb rem (durBeats - EPS)
      then restWhile fuel' clef durBeats durVex
             (arr ++ [restNote clef durVex]) (rem - durBeats)
      else Some (arr, rem)
  end.

(** [pushRests] with the final value of its local [rem] kept. *)
Definition pushRestsRem (fuel : nat) (arr : list StaveNote) (beats : Q)
    (clef : string) : option (list StaveNote * Q) :=
  foldl (fun st dv => st ≫= fun ar =>
                      restWhile fuel clef (fst dv) (snd dv) (fst ar) (snd ar))
        (Some (arr, beats)) REST_DURATIONS.

(** [pushRests(arr, beats, clef)]: the array after the call. *)
Definition pushRests (fuel : nat) (arr : list StaveNote) (beats : Q)
    (clef : string) : option (list StaveNote) :=
  fst <$> pushRestsRem fuel arr beats clef.

(** [[...notes].sort((a, b) => a.beat - b.beat)]: a stable sort by beat. *)
Fixpoint insertByBeat (n : Note) (l : list Note) : list Note :=
  match l with
  | [] => [n]
  | m :: l' =>
      if Qle_bool (note_beat n) (note_beat m) then n :: m :: l'
      else m :: insertByBeat n l'
  end.

Definition sortByBeat (notes : list Note) : list Note :=
  foldr insertByBeat [] notes.

(** The stave note built for one stored note (rest or pitched). *)
Definition noteEvent (clef : string) (keyAccidentals : gmap string string)
    (note : Note) : StaveNote :=
  let vexDur := durVexOr (note_duration note) in
  if note_is_rest note then
    {| sn_clef := clef; sn_keys := [restPosition clef];
       sn_duration := vexAppend vexDur "r"; sn_auto_stem := false;
       sn_accidental := None; sn_ensembleId := None |}
  else
    {| sn_clef := clef; sn_keys := [pitchToVexKey (note_pitch note)];
       sn_duration := vexDur; sn_auto_stem := true;
       sn_accidental := displayAccidental (note_pitch note) keyAccidentals;
       sn_ensembleId := Some (note_id note) |}.

(** [pushRests] called with what a subtraction gave.  On NaN every test
    [rem >= durBeats - 0.001] is false and nothing is pushed. *)
Definition pushRestsJs (fuel : nat) (arr : list StaveNote) (beats : JsNum)
    (clef : string) : option (list StaveNote) :=
  match beats with
  | Num b => pushRests fuel arr b clef
  | _ => Some arr
  end.

(** One iteration of [for (const note of sorted)]. *)
Definition measureStep (fuel : nat) (clef : string)
    (keyAccidentals : gmap string string)
    (st : list StaveNote * JsNum) (note : Note)
    : option (list StaveNote * JsNum) :=
  let '(vexNotes, cursor) := st in
  st1 ← (if numGtJs (note_beat note) (jsAdd cursor (Num EPS))
         then arr ← pushRestsJs fuel vexNotes
                      (jsSub (Num (note_beat note)) cursor) clef;
              Some (arr, Num (note_beat note))
         else Some (vexNotes, cursor));
  let '(vexNotes, cursor) := st1 in
  let beats := beatsOr 1 (note_duration note) in
  Some (vexNotes ++ [noteEvent clef keyAccidentals note], jsAdd cursor beats).

Fixpoint measureLoop (fuel : nat) (clef : string)
    (keyAccidentals : gmap string string)
    (st : list StaveNote * JsNum) (sorted : list Note)
    : option (list StaveNote * JsNum) :=
  match sorted with
  | [] => Some st
  | note :: rest =>
      st' ← measureStep fuel clef keyAccidentals st note;
      measureLoop fuel clef keyAccidentals st' rest
  end.

Definition buildMeasureNotes (fuel : nat) (notes : list Note) (clef : string)
    (keyAccidentals : gmap string string) (beatsPerMeasure : Q)
    : option (list StaveNote) :=
  let sorted := sortByBeat notes in
  '(vexNotes, cursor) ←
    measureLoop fuel clef keyAccidentals ([], Num 1) sorted;
  let remaining := jsAdd (jsSub (Num beatsPerMeasure) cursor) (Num 1) in
  if jsGtNum remaining EPS then pushRestsJs fuel vexNotes remaining clef
  else Some vexNotes.

(** Beat-count of a stave note, read off its VexFlow duration code. *)
Definition VEX_BEATS : gmap string Q :=
  list_to_map
    [("w"%string, 4); ("h"%string, 2); ("q"%string, 1);
     ("8"%string, 1 # 2); ("16"%string, 1 # 4);
     ("wr"%string, 4); ("hr"%string, 2); ("qr"%string, 1);
     ("8r"%string, 1 # 2); ("16r"%string, 1 # 4)].

Definition eventBeats (sn : StaveNote) : Q :=
  match sn_duration sn with
  | VexCode code => default 0 (VEX_BEATS !! code)
  | _ => 0
  end.

Definition totalBeats (events : list StaveNote) : Q :=
  foldr (fun sn acc => eventBeats sn + acc) 0 events.

(** ** editor.js: pitch and staff position *)

Definition DIATONIC : list string := ["C"; "D"; "E"; "F"; "G"; "A"; "B"]%string.

Record ClefBase := mkClefBase { cb_noteIdx : Z; cb_octave : Z }.

Definition CLEF_BASE : gmap string ClefBase :=
  list_to_map
    [("treble"%string, mkClefBase 3 5); ("alto"%string, mkClefBase 4 4);
     ("bass"%string, mkClefBase 5 3)].

(** [CLEF_BASE[clef] || CLEF_BASE.treble]. *)
Definition clefBase (clef : string) : ClefBase :=
  default (mkClefBase 3 5) (CLEF_BASE !! clef).

(** [Math.round]: the nearest integer, halves rounded up. *)
Definition Math_round (x : Q) : Z := Qfloor (x + (1 # 2)).

(** [arr[i]] for an integer index; [undefined] prints as ["undefined"]. *)
Definition indexStr (arr : list string) (i : Z) : string :=
  if (i <? 0)%Z then "undefined"%string
  else default "undefined"%string (arr !! Z.to_nat i).

Definition linePosToPitch (linePos : Q) (clef : string)
    (keyAccidentals : gmap string string) : string :=
  let base := clefBase clef in
  let steps := Math_round (linePos * 2) in
  let absPos := (cb_noteIdx base + cb_octave base * 7 - steps)%Z in
  let octave := (absPos / 7)%Z in
  let noteIdx := Z.rem absPos 7 in
  let '(noteIdx, octave) :=
    if (noteIdx <? 0)%Z then ((noteIdx + 7)%Z, (octave - 1)%Z)
    else (noteIdx, octave) in
  let letter := indexStr DIATONIC noteIdx in
  let keyAcc := keyAccOf keyAccidentals letter in
  (letter ++ keyAcc ++ pretty octave)%string.


(** [pitch[pitch.length - 1]]. *)
Fixpoint lastChar (s : string) : option ascii :=
  match s with
  | EmptyString => None
  | String c EmptyString => Some c
  | String _ s' => lastChar s'
  end.

(** [parseInt] of a one-character string: its digit, or [None] for NaN. *)
Definition parseIntChar (c : option ascii) : option Z :=
  match c with
  | Some c => if is_digit c then Some (Z.of_N (N_of_ascii c) - 48)%Z else None
  | None => None
  end.


(** ** Client-side placement: editor.js and beginner-renderer.js *)

Record Score := mkScore {
  score_key_signature : string;
  (** first component of [time_signature.split('/').map(Number)] *)
  score_beatsNum : Q;
  score_tempo : Q;
  score_total_measures : Z;
}.

(** The body of a [POST /api/notes] request. *)
Record NoteData := mkNoteData {
  nd_instrument_id : string;
  nd_pitch : string;
  nd_measure : Z;
  nd_beat : Q;
  nd_duration : string;
  nd_is_rest : bool;
  nd_accidental : option string;
  nd_dynamic : string;
  nd_session_id : string;
}.

Inductive ApiCall :=
| ApiAddNote (noteData : NoteData)
| ApiDeleteNote (noteId sessionId : string).

(** What the network answers: [Some] for a resolved promise, [None] for a
    rejected one. *)
Record Server := mkServer {
  srv_addNote : NoteData -> option Note;
  srv_deleteNote : string -> string -> bool;
}.

(** [notes.filter(n => n.instrument_id === inst && n.measure === m)]. *)
Definition notesIn (inst : string) (m : Z) (notes : list Note) : list Note :=
  filter (fun n => note_instrument_id n = inst /\ note_measure n = m) notes.

(** [existing.reduce((sum, n) => sum + (DUR_TO_BEATS[n.duration] || 0), 0)]. *)
Definition usedBeatsOf (existing : list Note) : JsNum :=
  foldl (fun sum n => jsAdd sum (beatsOr 0 (note_duration n))) (Num 0)
    existing.

(** [notes.find(n => ... && Math.abs(n.beat - beat) < 0.01)]. *)
Definition sameBeat (beat : Q) (n : Note) : bool :=
  negb (Qle_bool (1 # 100) (Qabs (note_beat n - beat))).

Definition findAtBeat (beat : Q) (l : list Note) : option Note :=
  List.find (sameBeat beat) l.

(** [idx = notes.findIndex(n => n.id === id)] followed by
    [if (idx !== -1) notes.splice(idx, 1)]. *)
Fixpoint removeFirstId (noteId : string) (notes : list Note) : list Note :=
  match notes with
  | [] => []
  | n :: notes' =>
      if String.eqb (note_id n) noteId then notes'
      else n :: removeFirstId noteId notes'
  end.

Record Editor := mkEditor {
  ed_sessionId : string;
  ed_instrumentId : string;
  ed_measure : Z;
  ed_selectedDuration : string;
  ed_selectedAccidental : option string;
  ed_restMode : bool;
  ed_dynamic : string;
  ed_placedNotes : list Note;
  ed_score : Score;
  (** [scoreData.notes] *)
  ed_notes : list Note;
}.

(** What one handler run did: the requests it sent, whether it flashed
    the red border, and the editor afterwards. *)
Record Outcome (S : Type) := mkOutcome {
  out_calls : list ApiCall;
  out_flash : bool;
  out_state : S;
}.
Arguments mkOutcome {S} _ _ _.
Arguments out_calls {S} _.
Arguments out_flash {S} _.
Arguments out_state {S} _.

Definition truthyStr (s : option string) : bool :=
  match s with
  | Some s => negb (String.eqb s EmptyString)
  | None => false
  end.

Definition lastStr (s : string) : string :=
  match lastChar s with Some c => str1 c | None => "undefined"%string end.

(** The accidental override of [_placeNote]. *)
Definition finalPitchOf (ed : Editor) (pitch : string) : string :=
  if truthyStr (ed_selectedAccidental ed) && negb (ed_restMode ed) then
    let letter := pitchLetter pitch in
    let octave := lastStr pitch in
    match ed_selectedAccidental ed with
    | Some "sharp"%string => (letter ++ "#" ++ octave)%string
    | Some "flat"%string => (letter ++ "b" ++ octave)%string
    | Some "natural"%string => (letter ++ octave)%string
    | _ => pitch
    end
  else pitch.

Definition placeNote (srv : Server) (ed : Editor) (pitch : string) (beat : Q)
    : Outcome Editor :=
  let beatsNum := score_beatsNum (ed_score ed) in
  let existingNotes :=
    notesIn (ed_instrumentId ed) (ed_measure ed) (ed_notes ed) in
  let usedBeats := usedBeatsOf existingNotes in
  let newNoteBeats := beatsOr 1 (ed_selectedDuration ed) in
  if jsGtNum (jsAdd usedBeats newNoteBeats) beatsNum
     || jsGtNum (jsSub (jsAdd (Num beat) newNoteBeats) (Num 1)) beatsNum
  then mkOutcome [] true ed
  else
    let noteData :=
      {| nd_instrument_id := ed_instrumentId ed;
         nd_pitch := finalPitchOf ed pitch;
         nd_measure := ed_measure ed;
         nd_beat := beat;
         nd_duration := ed_selectedDuration ed;
         nd_is_rest := ed_restMode ed;
         nd_accidental :=
           if truthyStr (ed_selectedAccidental ed)
           then ed_selectedAccidental ed else None;
         nd_dynamic := ed_dynamic ed;
         nd_session_id := ed_sessionId ed |} in
    match srv_addNote srv noteData with
    | Some saved =>
        mkOutcome [ApiAddNote noteData] false
          (mkEditor (ed_sessionId ed) (ed_instrumentId ed) (ed_measure ed)
             (ed_selectedDuration ed) (ed_selectedAccidental ed)
             (ed_restMode ed) (ed_dynamic ed)
             (ed_placedNotes ed ++ [saved]) (ed_score ed)
             (ed_notes ed ++ [saved]))
    | None => mkOutcome [ApiAddNote noteData] false ed
    end.

Definition deleteExistingNote (ed : Editor) (note : Note) : Outcome Editor :=
  mkOutcome [ApiDeleteNote (note_id note) (ed_sessionId ed)] false
    (mkEditor (ed_sessionId ed) (ed_instrumentId ed) (ed_measure ed)
       (ed_selectedDuration ed) (ed_selectedAccidental ed)
       (ed_restMode ed) (ed_dynamic ed) (ed_placedNotes ed) (ed_score ed)
       (removeFirstId (note_id note) (ed_notes ed))).


Record Beginner := mkBeginner {
  bg_sessionId : string;
  bg_currentInstrument : string;
  bg_currentMeasure : Z;
  (** [this._dragging] is set *)
  bg_dragging : bool;
  (** [this._layout] is set; its [beatsNum] is the score's, which [_draw]
      copies on every render *)
  bg_hasLayout : bool;
  bg_score : Score;
  bg_notes : list Note;
}.

Definition bgWithNotes (bg : Beginner) (notes : list Note) : Beginner :=
  mkBeginner (bg_sessionId bg) (bg_currentInstrument bg)
    (bg_currentMeasure bg) (bg_dragging bg) (bg_hasLayout bg) (bg_score bg)
    notes.

Definition Qmax (a b : Q) : Q := if Qle_bool a b then b else a.
Definition Qmin (a b : Q) : Q := if Qle_bool a b then a else b.

(** [_getPos]: [col] is [Math.floor(relX / beatWidth)] and [pitch] the
    result of [yToPitch]. *)
Definition getPos (bg : Beginner) (col : Z) (pitch : string)
    : option (Q * string) :=
  if bg_hasLayout bg then
    let beatsNum := score_beatsNum (bg_score bg) in
    Some (Qmax 1 (Qmin beatsNum (inject_Z col + 1)), pitch)
  else None.

Definition bgDeleteNote (bg : Beginner) (noteId : string) : Outcome Beginner :=
  match List.find (fun n => String.eqb (note_id n) noteId) (bg_notes bg) with
  | None => mkOutcome [] false bg
  | Some _ =>
      mkOutcome [ApiDeleteNote noteId (bg_sessionId bg)] false
        (bgWithNotes bg (removeFirstId noteId (bg_notes bg)))
  end.

(** [_onClick]: [hit] is the id of the note block under the pointer, if
    the click landed on one and not on its drag handle. *)
Definition onClick (srv : Server) (bg : Beginner) (hit : option string)
    (col : Z) (pitch : string) : Outcome Beginner :=
  if bg_dragging bg then mkOutcome [] false bg
  else
    match hit with
    | Some noteId => bgDeleteNote bg noteId
    | None =>
        match getPos bg col pitch with
        | None => mkOutcome [] false bg
        | Some (beat, pitch) =>
            let beatsNum := score_beatsNum (bg_score bg) in
            let existing :=
              notesIn (bg_currentInstrument bg) (bg_currentMeasure bg)
                (bg_notes bg) in
            let usedBeats := usedBeatsOf existing in
            if jsGtNum (jsAdd usedBeats (Num 1)) beatsNum
            then mkOutcome [] false bg
            else
              match findAtBeat beat existing with
              | Some _ => mkOutcome [] false bg
              | None =>
                  let noteData :=
                    {| nd_instrument_id := bg_currentInstrument bg;
                       nd_pitch := pitch;
                       nd_measure := bg_currentMeasure bg;
                       nd_beat := beat;
                       nd_duration := "quarter";
                       nd_is_rest := false;
                       nd_accidental := None;
                       nd_dynamic := "mf";
                       nd_session_id := bg_sessionId bg |} in
                  match srv_addNote srv noteData with
                  | Some saved =>
                      mkOutcome [ApiAddNote noteData] false
                        (bgWithNotes bg (bg_notes bg ++ [saved]))
                  | None => mkOutcome [ApiAddNote noteData] false bg
                  end
              end
        end
    end.

(** ** playback.js *)

Definition NOTE_SEMITONES : gmap string Z :=
  list_to_map
    [("C"%string, -9); ("D"%string, -7); ("E"%string, -5); ("F"%string, -4);
     ("G"%string, -2); ("A"%string, 0); ("B"%string, 2)]%Z.

(** The exponent numerator of [pitchToFreq]: [None] when the pattern
    [/^([A-G])(#|b)?(\d)$/] does not match. *)
Definition pitchSemitones (pitch : string) : option Z :=
  '(note, acc, oct) ← match_pitch pitch;
  let semitones :=
    (default 0 (NOTE_SEMITONES !! str1 note)
     + (default 0 (parseIntChar (Some oct)) - 4) * 12)%Z in
  let semitones :=
    if String.eqb acc "#" then (semitones + 1)%Z else semitones in
  let semitones :=
    if String.eqb acc "b" then (semitones - 1)%Z else semitones in
  Some semitones.

(** [440 * Math.pow(2, semitones / 12)], or the bare [440]. *)
Definition pitchToFreq (pitch : string) : R :=
  match pitchSemitones pitch with
  | None => 440%R
  | Some semitones => (440 * Rpower 2 (IZR semitones / 12))%R
  end.




(** Automation calls on [masterGain.gain]. *)
Inductive GainEvent :=
| SetValueAtTime (value time : Q)
| LinearRampToValueAtTime (value time : Q).


Definition eventValue (e : GainEvent) : Q :=
  match e with
  | SetValueAtTime v _ => v
  | LinearRampToValueAtTime v _ => v
  end.





Record Engine := mkEngine {
  soloInstrument : option string;
  mutedInstruments : gset string;
  (** [audioCtx.currentTime] when [play] runs; it becomes [startTime] *)
  currentTime : Q;
}.

(** The double nearest to an integer and to a rational.  The numbers [play]
    reads (tempo, beats per measure, measure numbers, beats, the audio
    clock) are doubles already, on which these are exact. *)
Definition Z2F (z : Z) : float :=
  SF2Prim (binary_normalize prec emax z 0 false).

Definition Q2F (q : Q) : float :=
  (Z2F (Qnum q) / Z2F (Zpos (Qden q)))%float.

(** The arguments of one [_scheduleNote] call made by [play]. *)
Record Scheduled := mkScheduled {
  sch_instrument : string;
  sch_pitch : string;
  sch_noteStart : float;
  sch_noteDur : float;
}.

(** [durBeats * secPerBeat]: an inherited object converts to NaN. *)
Definition jsMulF (a : JsNum) (b : float) : float :=
  match a with
  | Num q => (Q2F q * b)%float
  | _ => nan
  end.

(** The two [continue] tests on mute and solo. *)
Definition audible (eng : Engine) (note : Note) : bool :=
  negb (truthyStr (soloInstrument eng)
        && negb (bool_decide
                   (Some (note_instrument_id note) = soloInstrument eng)))
  && negb (bool_decide (note_instrument_id note ∈ mutedInstruments eng)).

(** The body of [for (const note of notes)] in [play]. *)
Definition playNote (eng : Engine) (score : Score) (fromMeasure : Z)
    (note : Note) : option Scheduled :=
  let tempo := Q2F (score_tempo score) in
  let beatsNum := Q2F (score_beatsNum score) in
  let secPerBeat := (60 / tempo)%float in
  let startTime := Q2F (currentTime eng) in
  if note_is_rest note then None
  else if (note_measure note <? fromMeasure)%Z then None
  else if negb (audible eng note) then None
  else
    let measureOffset :=
      (Z2F (note_measure note) - Z2F fromMeasure)%float in
    let beatOffset :=
      (measureOffset * beatsNum + (Q2F (note_beat note) - 1))%float in
    let noteStart := (startTime + beatOffset * secPerBeat)%float in
    let durBeats := beatsOr 1 (note_duration note) in
    let noteDur := jsMulF durBeats secPerBeat in
    Some (mkScheduled (note_instrument_id note) (note_pitch note)
            noteStart noteDur).

(** [play]: the [_scheduleNote] calls in order, and [_totalDuration].
    The calls are listed as [play] makes them when each returns. *)
Definition play (eng : Engine) (score : Score) (notes : list Note)
    (fromMeasure : Z) : list Scheduled * float :=
  let secPerBeat := (60 / Q2F (score_tempo score))%float in
  let totalBeats :=
    ((Z2F (score_total_measures score) - Z2F fromMeasure + 1)
     * Q2F (score_beatsNum score))%float in
  (omap (playNote eng score fromMeasure) notes,
   (totalBeats * secPerBeat)%float).

(** ** server.js: the notes table and its delete route *)

Inductive Response :=
| JsonSuccess
| StatusError (code : Z) (error : string).

(** SQL [=] on nullable text: never true on NULL. *)
Definition sqlEq (a b : option string) : bool :=
  match a, b with
  | Some x, Some y => String.eqb x y
  | _, _ => false
  end.

(** [DELETE FROM notes WHERE id = ? AND session_id = ?] on a table keyed
    by its primary key; returns the table and [changes]. *)
Definition sqlDeleteNote (notes : gmap string Note) (noteId : string)
    (session_id : option string) : gmap string Note * Z :=
  match notes !! noteId with
  | Some row =>
      if sqlEq (note_session_id row) session_id
      then (delete noteId notes, 1%Z)
      else (notes, 0%Z)
  | None => (notes, 0%Z)
  end.

(** [app.delete('/api/notes/:id', ...)]. *)
Definition deleteRoute (notes : gmap string Note) (noteId : string)
    (session_id : option string) : gmap string Note * Response :=
  let '(notes', changes) := sqlDeleteNote notes noteId session_id in
  if (0 <? changes)%Z then (notes', JsonSuccess)
  else (notes', StatusError 404 "Note not found or not owned by this session").

(** The strings [/^([A-G])(#|b)?(\d)$/] describes: a letter A to G, an
    optional sharp or flat sign, one decimal digit. *)
Definition PitchPattern (s : string) : Prop :=
  exists (l : ascii) (acc : string) (o : ascii),
    is_note_letter l = true
    /\ (acc = EmptyString \/ acc = "#"%string \/ acc = "b"%string)
    /\ is_digit o = true
    /\ s = String l (acc ++ str1 o).


(** A row is owned by the presented session id. *)
Definition ownedBy (row : Note) (session_id : option string) : Prop :=
  exists sid, note_session_id row = Some sid /\ session_id = Some sid.


(** The five durations of the data model. *)
Definition DURATION_NAMES : list string :=
  ["whole"; "half"; "quarter"; "eighth"; "sixteenth"]%string.

(** The beat-count the data model gives a duration: 4, 2, 1, 0.5, 0.25
    beats; a malformed duration is taken for a quarter. *)
Definition beatCount (duration : string) : Q :=
  if String.eqb duration "whole" then 4
  else if String.eqb duration "half" then 2
  else if String.eqb duration "quarter" then 1
  else if String.eqb duration "eighth" then 1 # 2
  else if String.eqb duration "sixteenth" then 1 # 4
  else 1.



(** Fixtures: a first-violin note of measure 1, an editor and the beginner
    view opened on that measure of the seeded 4/4 score. *)
Definition violinNote (noteId : string) (beat : Q) (duration : string) : Note :=
  mkNote noteId "violin1" "A4" 1 beat duration false None "mf"
    (Some "s0"%string).

Definition seededScore : Score := mkScore "D" 4 100 32.

Definition editorOn (selectedDuration : string) (notes : list Note) : Editor :=
  mkEditor "s1" "violin1" 1 selectedDuration None false "mf" [] seededScore
    notes.

Definition beginnerOn (notes : list Note) : Beginner :=
  mkBeginner "s1" "violin1" 1 false true seededScore notes.

(** A store that accepts every note and names it ["new"]. *)
Definition acceptAll : Server :=
  mkServer
    (fun nd => Some (mkNote "new" (nd_instrument_id nd) (nd_pitch nd)
                       (nd_measure nd) (nd_beat nd) (nd_duration nd)
                       (nd_is_rest nd) (nd_accidental nd) (nd_dynamic nd)
                       (Some (nd_session_id nd))))
    (fun _ _ => true).

(** Offset from the playback start and length the timing rule gives a
    note, with [60 / tempo] seconds to the beat, each operation rounded to
    double precision. *)
Definition ruleOffset (score : Score) (fromMeasure : Z) (note : Note)
    : float :=
  (((Z2F (note_measure note) - Z2F fromMeasure) * Q2F (score_beatsNum score)
    + (Q2F (note_beat note) - 1)) * (60 / Q2F (score_tempo score)))%float.

Definition ruleLength (score : Score) (note : Note) : float :=
  (Q2F (beatCount (note_duration note)) * (60 / Q2F (score_tempo score)))%float.

(** A note that is to sound: it is no rest, lies at or after the start
    measure, its instrument is not muted, and it is the solo instrument's
    when a solo instrument (a non-empty id) is set. *)
Definition sounding (eng : Engine) (fromMeasure : Z) (note : Note) : Prop :=
  note_is_rest note = false
  /\ (fromMeasure <= note_measure note)%Z
  /\ (note_instrument_id note ∉ mutedInstruments eng)
  /\ (forall solo, soloInstrument eng = Some solo -> solo <> EmptyString ->
        note_instrument_id note = solo).


(** A count of loop iterations, as a number of beats. *)
Definition natQ (k : nat) : Q := inject_Z (Z.of_nat k).

(** Iterations that let every loop of [pushRests] run to its exit on a gap
    of [beats]. *)
Definition restFuel (beats : Q) : nat := S (S (Z.to_nat (Qceiling beats))).

(** A whole number of sixteenths. *)
Definition onGrid (q : Q) : Prop := exists k : Z, q == inject_Z k * (1 # 4).

(** The rests a greedy fill emits: wholes, then halves, quarters, eighths
    and sixteenths. *)
Definition restRun (clef : string) (kw kh kq ke ks : nat) : list StaveNote :=
  replicate kw (restNote clef "w") ++ replicate kh (restNote clef "h")
  ++ replicate kq (restNote clef "q") ++ replicate ke (restNote clef "8")
  ++ replicate ks (restNote clef "16").

(** Where a stored note ends: its beat plus its beat-count. *)
Definition noteEnd (n : Note) : Q :=
  note_beat n + beatCount (note_duration n).

(** The beat spans of two notes do not overlap. *)
Definition disjointSpans (a b : Note) : Prop :=
  noteEnd a <= note_beat b \/ noteEnd b <= note_beat a.

(** [a] is over when [b] starts. *)
Definition noteAfter (a b : Note) : Prop := noteEnd a <= note_beat b.

(** Notes that follow one another from [cursor] on: each starts on the
    sixteenth grid at or after the end of the one before, and ends inside
    a measure of [B] beats. *)
Fixpoint inSequence (B cursor : Q) (ns : list Note) : Prop :=
  match ns with
  | [] => cursor <= B + 1
  | n :: ns' =>
      cursor <= note_beat n /\ onGrid (note_beat n) /\ noteEnd n <= B + 1
      /\ inSequence B (noteEnd n) ns'
  end.

(** A rest made by [pushRests]. *)
Definition synthRest (clef : string) (e : StaveNote) : Prop :=
  exists v, v ∈ snd <$> REST_DURATIONS /\ e = restNote clef v.

(** [events] is the stave notes of [ns], in order, with nothing but
    synthesized rests before, between and after them. *)
Inductive Interleaved (clef : string) (keyAccidentals : gmap string string)
    : list Note -> list StaveNote -> Prop :=
| Interleaved_nil (rests : list StaveNote) :
    Forall (synthRest clef) rests ->
    Interleaved clef keyAccidentals [] rests
| Interleaved_cons (rests : list StaveNote) (n : Note) (ns : list Note)
    (events : list StaveNote) :
    Forall (synthRest clef) rests ->
    Interleaved clef keyAccidentals ns events ->
    Interleaved clef keyAccidentals (n :: ns)
      (rests ++ noteEvent clef keyAccidentals n :: events).

(** The duration is one of the five of the data model. *)
Definition knownDuration (n : Note) : Prop :=
  note_duration n ∈ DURATION_NAMES.

(** The duration does not name a property of [Object.prototype]: it is one
    of the five, or malformed in a way the tables simply do not know. *)
Definition plainDuration (n : Note) : Prop :=
  note_duration n ∉ OBJECT_PROTOTYPE.

(** Sum of the beat-counts of stored notes. *)
Definition beatCountSum (existing : list Note) : Q :=
  foldr (fun n acc => beatCount (note_duration n) + acc) 0 existing.

(** A note of the given instrument and measure. *)
Definition inMeasure (inst : string) (m : Z) (n : Note) : Prop :=
  note_instrument_id n = inst /\ note_measure n = m.

(** Sum of the beat-counts of the notes of one instrument and measure
    among [notes]. *)
Definition beatsInMeasure (inst : string) (m : Z) (notes : list Note) : Q :=
  foldr (fun n acc =>
           if bool_decide (note_instrument_id n = inst /\ note_measure n = m)
           then beatCount (note_duration n) + acc else acc)
        0 notes.

(** Every note of the instrument and measure has one of the five
    durations. *)
Definition knownInMeasure (inst : string) (m : Z) (notes : list Note) : Prop :=
  forall n, n ∈ notes -> inMeasure inst m n ->
    note_duration n ∈ DURATION_NAMES.

(** The beat a click in column [col] of the beginner grid addresses: the
    column's beat, kept between 1 and the number of beats. *)
Definition columnBeat (beatsNum : Q) (col : Z) : Q :=
  Qmax 1 (Qmin beatsNum (inject_Z col + 1)).

(** The seven note letters, listed apart from the matcher. *)
Definition LETTERS : list ascii := ["A"; "B"; "C"; "D"; "E"; "F"; "G"]%char.

(** A string that does not begin with a sharp or a flat sign. *)
Definition noAccidentalAhead (tail : string) : Prop :=
  forall t, tail <> String "#" t /\ tail <> String "b" t.

(** The key signature the score is seeded with. *)
Definition D_major : gmap string string := getKeyAccidentals "D".

(** ** editor.js: measure navigation, toolbar, undo *)

(** The editor with its measure, undo stack and note list replaced. *)
Definition edWith (ed : Editor) (measure : Z) (placedNotes notes : list Note)
    : Editor :=
  mkEditor (ed_sessionId ed) (ed_instrumentId ed) measure
    (ed_selectedDuration ed) (ed_selectedAccidental ed) (ed_restMode ed)
    (ed_dynamic ed) placedNotes (ed_score ed) notes.

Definition prevMeasure (ed : Editor) : Editor :=
  if (1 <? ed_measure ed)%Z
  then edWith ed (ed_measure ed - 1) [] (ed_notes ed)
  else ed.

Definition nextMeasure (ed : Editor) : Editor :=
  if (ed_measure ed <? score_total_measures (ed_score ed))%Z
  then edWith ed (ed_measure ed + 1) [] (ed_notes ed)
  else ed.

(** [placedNotes.pop()]: the array without its last element, and that
    element. *)
Fixpoint popLast (l : list Note) : option (list Note * Note) :=
  match l with
  | [] => None
  | n :: l' =>
      match popLast l' with
      | None => Some ([], n)
      | Some (rest, last) => Some (n :: rest, last)
      end
  end.

(** [undo]: on a refused delete the note goes back on the undo stack. *)
Definition undo (srv : Server) (ed : Editor) : Outcome Editor :=
  match popLast (ed_placedNotes ed) with
  | None => mkOutcome [] false ed
  | Some (placed, last) =>
      let call := ApiDeleteNote (note_id last) (ed_sessionId ed) in
      if srv_deleteNote srv (note_id last) (ed_sessionId ed)
      then mkOutcome [call] false
             (edWith ed (ed_measure ed) placed
                (removeFirstId (note_id last) (ed_notes ed)))
      else mkOutcome [call] false
             (edWith ed (ed_measure ed) (placed ++ [last]) (ed_notes ed))
  end.

(** ** editor.js: pointer geometry *)

(** What the editor reads off its VexFlow stave: [getNoteStartX()],
    [getNoteEndX()], [getYForLine(0)] and [getYForLine(4)]. *)
Record Stave := mkStave {
  noteStartX : Q;
  noteEndX : Q;
  yLine0 : Q;
  yLine4 : Q;
}.

(** [_xToBeat]; [None] is an editor whose stave is not drawn yet. *)
Definition xToBeat (stave : option Stave) (score : Score)
    (selectedDuration : string) (x : Q) : Q :=
  match stave with
  | None => 1
  | Some stave =>
      let musicWidth := noteEndX stave - noteStartX stave in
      let beatsNum := score_beatsNum score in
      let durBeats := durBeatsOr 1 selectedDuration in
      let subdivisions := beatsNum / durBeats in
      let relX := x - noteStartX stave in
      let gridPos := Math_round ((relX / musicWidth) * subdivisions) in
      let clamped := Qmax 0 (Qmin (inject_Z gridPos) (subdivisions - 1)) in
      1 + clamped * durBeats
  end.

(** [_snapX]. *)
Definition snapX (stave : option Stave) (score : Score) (beat : Q) : Q :=
  match stave with
  | None => 0
  | Some stave =>
      let musicWidth := noteEndX stave - noteStartX stave in
      let fraction := (beat - 1) / score_beatsNum score in
      noteStartX stave + fraction * musicWidth
  end.

(** [_yToLinePos]. *)
Definition yToLinePos (stave : option Stave) (y : Q) : Q :=
  match stave with
  | None => 2
  | Some stave =>
      let topY := yLine0 stave in
      let botY := yLine4 stave in
      let spacing := (botY - topY) / 4 in
      let halfSpacing := spacing / 2 in
      let rawPos := (y - topY) / halfSpacing in
      inject_Z (Math_round (rawPos * 2)) / 2
  end.

(** [_snapY]. *)
Definition snapY (stave : option Stave) (linePos : Q) : Q :=
  match stave with
  | None => 0
  | Some stave =>
      let topY := yLine0 stave in
      let botY := yLine4 stave in
      let halfSpacing := (botY - topY) / 8 in
      topY + linePos * halfSpacing * 2
  end.

(** A key-signature map whose entries are sharps and flats only. *)
Definition sharpsAndFlats (keyAccidentals : gmap string string) : Prop :=
  forall l a, keyAccidentals !! l = Some a -> a = "#"%string \/ a = "b"%string.

(** The first character of a string, if any, is neither ['#'] nor ['b']. *)
Definition headNotAcc (s : string) : Prop :=
  match s with
  | EmptyString => True
  | String c _ => is_acc_char c = false
  end.

(** The arrow keys of the open editor. *)
Inductive NavKey := ArrowLeft | ArrowRight.

Definition navigate (ed : Editor) (key : NavKey) : Editor :=
  match key with
  | ArrowLeft => prevMeasure ed
  | ArrowRight => nextMeasure ed
  end.

(** The store answers a create request with the row it inserted. *)
Definition echoes (srv : Server) : Prop :=
  forall noteData saved, srv_addNote srv noteData = Some saved ->
    note_instrument_id saved = nd_instrument_id noteData
    /\ note_measure saved = nd_measure noteData
    /\ note_beat saved = nd_beat noteData
    /\ note_duration saved = nd_duration noteData.

(** ** beginner-renderer.js: the eight-pitch staff *)

Definition BEGINNER_PITCHES : list string :=
  ["C5"; "B4"; "A4"; "G4"; "F4"; "E4"; "D4"; "C4"]%string.

(** The object literal [map] of [pitchToY]. *)
Definition BEGINNER_POS : gmap string Q :=
  list_to_map
    [("C5"%string, - (1)); ("B4"%string, - (1 # 2)); ("A4"%string, 0);
     ("G4"%string, 1 # 2); ("F4"%string, 1); ("E4"%string, 3 # 2);
     ("D4"%string, 2); ("C4"%string, 5 # 2)].

(** [pitchToY]: [map[pitch] ?? 1]. *)
Definition pitchToY (pitch : string) (topY lineSpacing : Q) : Q :=
  let pos := default 1 (BEGINNER_POS !! pitch) in
  topY + pos * lineSpacing * 2.

(** One round of the nearest-pitch loop; [bestDist] is [None] while it is
    still [Infinity]. *)
Definition nearerPitch (y topY lineSpacing : Q)
    (st : string * option Q) (p : string) : string * option Q :=
  let py := pitchToY p topY lineSpacing in
  let d := Qabs (py - y) in
  match snd st with
  | None => (p, Some d)
  | Some bestDist =>
      if Qle_bool bestDist d then st else (p, Some d)
  end.

(** [yToPitch]. *)
Definition yToPitch (y topY lineSpacing : Q) : string :=
  fst (foldl (nearerPitch y topY lineSpacing) ("C5"%string, None)
         BEGINNER_PITCHES).

(** [_beatsToDuration]. *)
Definition beatsToDuration (beats : Q) : string :=
  if Qgeb beats 3 then "whole"%string
  else if Qgeb beats (3 # 2) then "half"%string
  else if Qgeb beats (3 # 4) then "quarter"%string
  else if Qgeb beats (3 # 8) then "eighth"%string
  else "sixteenth"%string.

(** The duration a drag of the right edge previews: [beatDelta] is
    [Math.round(dx / beatWidth)]. *)
Definition dragDuration (originalDur : string) (beatDelta : Z) : string :=
  match beatsOr 1 originalDur with
  | Num origBeats =>
      let newBeats := Qmax (1 # 4) (origBeats + inject_Z beatDelta) in
      beatsToDuration newBeats
  | _ =>
      (* [newBeats] is NaN and every test of [_beatsToDuration] fails *)
      "sixteenth"%string
  end.

(** ** playback.js: mute and solo *)

Definition toggleMute (eng : Engine) (instrumentId : string) : Engine :=
  if bool_decide (instrumentId ∈ mutedInstruments eng)
  then mkEngine (soloInstrument eng)
         (mutedInstruments eng ∖ {[ instrumentId ]}) (currentTime eng)
  else mkEngine (soloInstrument eng)
         (mutedInstruments eng ∪ {[ instrumentId ]}) (currentTime eng).

Definition toggleSolo (eng : Engine) (instrumentId : string) : Engine :=
  if bool_decide (soloInstrument eng = Some instrumentId)
  then mkEngine None (mutedInstruments eng) (currentTime eng)
  else mkEngine (Some instrumentId) (mutedInstruments eng) (currentTime eng).

(** ** server.js: creating and updating notes *)

(** The body of [POST /api/notes], taken to carry an instrument id, a
    pitch, a measure, a beat and a duration; the optional fields are [None]
    when absent or [null]. *)
Record PostBody := mkPostBody {
  pb_instrument_id : string;
  pb_pitch : string;
  pb_measure : Z;
  pb_beat : Q;
  pb_duration : string;
  pb_is_rest : bool;
  pb_accidental : option string;
  pb_dynamic : option string;
  pb_session_id : option string;
}.

(** The body of [PUT /api/notes/:id]. *)
Record PutBody := mkPutBody {
  ub_pitch : string;
  ub_beat : Q;
  ub_duration : string;
  ub_accidental : option string;
  ub_dynamic : option string;
}.

(** What the two routes answer: the row as JSON, an error status, or an
    exception of the database layer (a constraint of the table fails). *)
Inductive NoteResponse :=
| NoteJson (row : Note)
| NoteError (code : Z) (error : string)
| NoteThrows.

(** [accidental || null]. *)
Definition orNull (x : option string) : option string :=
  if truthyStr x then x else None.

(** [dynamic || 'mf']. *)
Definition orMf (x : option string) : string :=
  match x with
  | Some s => if String.eqb s EmptyString then "mf"%string else s
  | None => "mf"%string
  end.

(** [app.post('/api/notes', ...)]: [uuid] is the result of [randomUUID()]
    and [instruments] the ids of the instruments table; the insert fails
    on a primary-key clash or an unknown instrument. *)
Definition postRoute (instruments : gset string) (total_measures : Z)
    (notes : gmap string Note) (uuid : string) (body : PostBody)
    : gmap string Note * NoteResponse :=
  if (pb_measure body <? 1)%Z || (total_measures <? pb_measure body)%Z
  then (notes, NoteError 400 "Measure out of range")
  else if bool_decide (is_Some (notes !! uuid))
          || negb (bool_decide (pb_instrument_id body ∈ instruments))
  then (notes, NoteThrows)
  else
    let row :=
      mkNote uuid (pb_instrument_id body) (pb_pitch body) (pb_measure body)
        (pb_beat body) (pb_duration body) (pb_is_rest body)
        (orNull (pb_accidental body)) (orMf (pb_dynamic body))
        (pb_session_id body) in
    (<[uuid := row]> notes, NoteJson row).

(** [app.put('/api/notes/:id', ...)]. *)
Definition putRoute (notes : gmap string Note) (noteId : string)
    (body : PutBody) : gmap string Note * NoteResponse :=
  match notes !! noteId with
  | Some row =>
      let row' :=
        mkNote (note_id row) (note_instrument_id row) (ub_pitch body)
          (note_measure row) (ub_beat body) (ub_duration body)
          (note_is_rest row) (orNull (ub_accidental body))
          (orMf (ub_dynamic body)) (note_session_id row) in
      (<[noteId := row']> notes, NoteJson row')
  | None => (notes, NoteError 404 "Note not found")
  end.

(** ** app.js: merging polled notes *)

(** The merge loop of [startPolling]: [existingIds] is computed once,
    before the loop. *)
Definition mergeNotes (notes newNotes : list Note) : list Note :=
  let existingIds := note_id <$> notes in
  notes ++ filter (fun n => note_id n ∉ existingIds) newNotes.

(** ** Semitone arithmetic of [pitchToFreq] on a well-formed pitch *)

Definition accShift (acc : string) : Z :=
  if String.eqb acc "#" then 1
  else if String.eqb acc "b" then -1 else 0.

Definition digitOf (o : ascii) : Z := Z.of_N (N_of_ascii o) - 48.

(** ** renderer.js: page layout and hit test *)

Record Instrument := mkInstrument {
  inst_id : string;
  inst_name : string;
  inst_abbreviation : string;
  inst_clef : string;
}.

(** An entry of [staveMap] (without the VexFlow stave object). *)
Record StaveBox := mkStaveBox {
  sb_instrumentId : string;
  sb_instrumentName : string;
  sb_clef : string;
  sb_measure : Z;
  sb_x : Q;
  sb_y : Q;
  sb_width : Q;
  sb_height : Q;
}.

(** The fields of [ScoreRenderer] set by its constructor. *)
Definition measuresPerSystem : Z := 4.
Definition staveSpacing : Q := 75.
Definition systemGap : Q := 35.
Definition leftMargin : Q := 40.

(** [Math.min(measuresPerSystem, totalMeasures - startMeasure + 1)] for
    system [sys]. *)
Definition measCount (totalMeasures sys : Z) : Z :=
  Z.min measuresPerSystem
    (totalMeasures - (sys * measuresPerSystem + 1) + 1).

(** The entry pushed for system [sys], instrument number [i] and the
    [m]-th measure of the system. *)
Definition staveBox (containerWidth : Q) (nInstruments : nat)
    (totalMeasures sys : Z) (i : nat) (inst : Instrument) (m : Z) : StaveBox :=
  let startMeasure := (sys * measuresPerSystem + 1)%Z in
  let systemHeight := natQ nInstruments * staveSpacing in
  let systemY := inject_Z sys * (systemHeight + systemGap) + 20 in
  let availableWidth := containerWidth - leftMargin - 20 in
  let staveWidth := availableWidth / inject_Z (measCount totalMeasures sys) in
  let y := systemY + natQ i * staveSpacing in
  let measureNum := (startMeasure + m)%Z in
  let x := leftMargin + inject_Z m * staveWidth in
  mkStaveBox (inst_id inst) (inst_name inst) (inst_clef inst) measureNum
    x y staveWidth staveSpacing.

(** The [staveMap] that [render] builds: systems, then instruments, then
    the measures of the system. *)
Definition renderStaveMap (clientWidth : Q) (instruments : list Instrument)
    (totalMeasures : Z) : list StaveBox :=
  let numSystems :=
    Qceiling (inject_Z totalMeasures / inject_Z measuresPerSystem) in
  let containerWidth := Qmax clientWidth 800 in
  sys ← seqZ 0 numSystems;
  i ← seq 0 (length instruments);
  match instruments !! i with
  | Some inst =>
      m ← seqZ 0 (measCount totalMeasures sys);
      [staveBox containerWidth (length instruments) totalMeasures sys i inst m]
  | None => []
  end.

(** The test of [hitTest] on one entry. *)
Definition inBox (x y : Q) (s : StaveBox) : bool :=
  Qgeb x (sb_x s) && Qle_bool x (sb_x s + sb_width s)
  && Qgeb y (sb_y s) && Qle_bool y (sb_y s + sb_height s).

(** [hitTest], on coordinates already made relative to the container. *)
Definition hitTest (staveMap : list StaveBox) (x y : Q) : option StaveBox :=
  List.find (inBox x y) staveMap.

(** ** beginner-renderer.js: the drawn grid and the pointer *)

(** The layout constants of [_draw]. *)
Definition bgLeftMargin : Q := 60.
Definition bgRightMargin : Q := 20.
Definition bgTopY : Q := 40.
Definition bgLineSpacing : Q := 16.

(** [beatWidth] as [_draw] computes it from the container's width. *)
Definition bgBeatWidth (clientWidth : Q) (score : Score) : Q :=
  let width := Qmax clientWidth 600 in
  let musicWidth := width - bgLeftMargin - bgRightMargin in
  musicWidth / score_beatsNum score.

(** The rectangle [_drawBlock] draws for a note: x, y, width, height;
    [None] when the duration or the pitch names an inherited property and
    a coordinate is NaN. *)
Definition drawBlock (clientWidth : Q) (score : Score) (note : Note)
    : option (Q * Q * Q * Q) :=
  let beatWidth := bgBeatWidth clientWidth score in
  match beatsOr 1 (note_duration note), inherited (note_pitch note) with
  | Num dur, false =>
      let x := bgLeftMargin + (note_beat note - 1) * beatWidth + 2 in
      let w := dur * beatWidth - 4 in
      let y := pitchToY (note_pitch note) bgTopY bgLineSpacing - 10 in
      Some (x, y, w, 20)
  | _, _ => None
  end.

(** [_getPos] on pointer coordinates relative to the container. *)
Definition pointerPos (bg : Beginner) (clientWidth mx my : Q)
    : option (Q * string) :=
  let beatWidth := bgBeatWidth clientWidth (bg_score bg) in
  let relX := mx - bgLeftMargin in
  getPos bg (Qfloor (relX / beatWidth)) (yToPitch my bgTopY bgLineSpacing).

(** * Properties *)

(** ** Key-signature resolver *)

Lemma LETTERS_note_letter (l : ascii) :
  l ∈ LETTERS -> is_note_letter l = true.
Proof.
  unfold LETTERS. rewrite !elem_of_cons, elem_of_nil.
  intros [->|[->|[->|[->|[->|[->|[->|[]]]]]]]]; reflexivity.
Qed.

Lemma noAccidentalAhead_head (a : ascii) (t : string) :
  noAccidentalAhead (String a t) -> is_acc_char a = false.
Proof.
  intros H. destruct (H t) as [H1 H2].
  destruct (is_acc_char a) eqn:E; [|reflexivity]. exfalso.
  unfold is_acc_char in E. apply orb_true_iff in E as [E|E];
    apply N.eqb_eq in E;
    [apply H1|apply H2]; rewrite <- (ascii_N_embedding a), E; reflexivity.
Qed.

(** The accidental [pitchAccidental] reads off a pitch written as letter,
    accidental, rest. *)
Lemma pitchAccidental_written (l : ascii) (acc tail : string) :
  l ∈ LETTERS ->
  acc = "#"%string \/ acc = "b"%string
  \/ (acc = EmptyString /\ noAccidentalAhead tail) ->
  pitchAccidental (String l (acc ++ tail)) = acc.
Proof.
  intros Hl Hacc. unfold pitchAccidental.
  rewrite (LETTERS_note_letter l Hl).
  destruct Hacc as [->|[->|[-> Hno]]]; [reflexivity..|].
  destruct tail as [|a t]; [reflexivity|].
  change (EmptyString ++ String a t)%string with (String a t).
  cbv beta iota. rewrite (noAccidentalAhead_head a t Hno). reflexivity.
Qed.

(** C3. For a pitch written as a letter A to G, its stored accidental
    (sharp, flat or none) and the rest, and any key-signature map:
    [displayAccidental] shows nothing when the stored accidental is the one
    the map forces on the letter (or there is neither), a natural sign when
    the pitch has no accidental and the map forces one, and the pitch's own
    sharp or flat otherwise.  In D major, the map with F and C sharp: F4
    shows a natural, F#4 nothing, C#4 nothing, C4 a natural. *)
Theorem displayAccidental_rule :
  (forall (l : ascii) (acc tail : string)
          (keyAccidentals : gmap string string),
      l ∈ LETTERS ->
      acc = "#"%string \/ acc = "b"%string
      \/ (acc = EmptyString /\ noAccidentalAhead tail) ->
      let pitch := String l (acc ++ tail) in
      let forced := keyAccidentals !! str1 l in
      (forced = Some acc \/ (acc = EmptyString /\ forced = None) ->
       displayAccidental pitch keyAccidentals = None)
      /\ (acc = EmptyString ->
          (exists k, forced = Some k /\ k <> EmptyString) ->
          displayAccidental pitch keyAccidentals = Some "n"%string)
      /\ (acc <> EmptyString -> forced <> Some acc ->
          displayAccidental pitch keyAccidentals = Some acc))
  /\ D_major = {[ "F"%string := "#"%string; "C"%string := "#"%string ]}
  /\ displayAccidental "F4" D_major = Some "n"%string
  /\ displayAccidental "F#4" D_major = None
  /\ displayAccidental "C#4" D_major = None
  /\ displayAccidental "C4" D_major = Some "n"%string.
Proof.
  split; [|repeat split; vm_compute; reflexivity].
  intros l acc tail keyAccidentals Hl Hacc. cbv zeta.
  unfold displayAccidental.
  rewrite (pitchAccidental_written l acc tail Hl Hacc).
  unfold pitchLetter, keyAccOf.
  destruct (keyAccidentals !! str1 l) as [k|] eqn:Hk; cbn [default];
    unfold Datatypes.id.
  - split; [|split].
    + intros [[= ->]|[_ [=]]]. rewrite String.eqb_refl. reflexivity.
    + intros -> (k' & [= <-] & Hne).
      destruct k as [|c k]; [congruence|]. reflexivity.
    + intros Hne Hf.
      destruct (String.eqb_spec acc k) as [->|_]; [congruence|].
      destruct Hacc as [->|[->|[-> _]]]; [reflexivity..|congruence].
  - split; [|split].
    + intros [[=]|[-> _]]. reflexivity.
    + intros _ (k' & [=] & _).
    + intros Hne _.
      destruct Hacc as [->|[->|[-> _]]]; [reflexivity..|congruence].
Qed.

(** ** Pitch to frequency *)

Lemma is_acc_char_cases (a : ascii) :
  is_acc_char a = true -> str1 a = "#"%string \/ str1 a = "b"%string.
Proof.
  unfold is_acc_char. intros H. apply orb_true_iff in H as [H|H];
    apply N.eqb_eq in H; rewrite <- (ascii_N_embedding a), H; auto.
Qed.

Lemma match_pitch_pattern (s : string) :
  PitchPattern s <-> exists r, match_pitch s = Some r.
Proof.
  split.
  - intros (l & acc & o & Hl & Hacc & Ho & ->).
    destruct Hacc as [->|[->| ->]]; simpl; rewrite Hl, Ho; simpl; eauto.
  - intros [r Hr].
    destruct s as [|l [|a [|o [|x s]]]]; simpl in Hr; try discriminate.
    + destruct (is_note_letter l) eqn:Hl, (is_digit a) eqn:Ha;
        try discriminate.
      exists l, EmptyString, a. auto.
    + destruct (is_note_letter l) eqn:Hl, (is_acc_char a) eqn:Ha,
        (is_digit o) eqn:Ho; try discriminate.
      exists l, (str1 a), o. repeat split; auto.
      destruct (is_acc_char_cases a Ha) as [-> | ->]; auto.
Qed.

(** C10. [pitchToFreq] answers every string: one that does not have the
    shape letter, optional sharp or flat, single digit is sounded as
    exactly 440. *)
Theorem pitchToFreq_malformed (pitch : string) :
  ~ PitchPattern pitch -> pitchToFreq pitch = 440%R.
Proof.
  intros Hno. unfold pitchToFreq, pitchSemitones.
  destruct (match_pitch pitch) as [[[l a] o]|] eqn:E; [|reflexivity].
  exfalso. apply Hno, match_pitch_pattern. eauto.
Qed.

Lemma pitchToFreq_malformed_witness :
  ~ PitchPattern "H4" /\ pitchToFreq "H4" = 440%R.
Proof.
  assert (Hno : ~ PitchPattern "H4").
  { intros H. apply match_pitch_pattern in H as [r Hr]. discriminate Hr. }
  split; [exact Hno | exact (pitchToFreq_malformed "H4" Hno)].
Defined.

(** ** Session-scoped delete *)

Lemma sqlEq_owned (row : Note) (session_id : option string) :
  sqlEq (note_session_id row) session_id = true <-> ownedBy row session_id.
Proof.
  unfold sqlEq, ownedBy. split.
  - destruct (note_session_id row) as [x|], session_id as [y|];
      try discriminate.
    intros H%String.eqb_eq. subst. eauto.
  - intros (sid & -> & ->). apply String.eqb_refl.
Qed.

(** C9. The delete route removes the row with the requested id exactly
    when the presented session id is the one stored with it; every other
    row stays.  When nothing is removed, whether the row is absent or owned
    by another session, the table is unchanged and the answer is the one
    404 message that names both causes. *)
Theorem deleteRoute_ownership (notes : gmap string Note) (noteId : string)
    (session_id : option string) :
  let notes' := (deleteRoute notes noteId session_id).1 in
  let answer := (deleteRoute notes noteId session_id).2 in
  (forall row, notes !! noteId = Some row ->
     (notes' !! noteId = None <-> ownedBy row session_id))
  /\ (forall other, other <> noteId -> notes' !! other = notes !! other)
  /\ ((exists row, notes !! noteId = Some row /\ ownedBy row session_id) ->
      answer = JsonSuccess)
  /\ (~ (exists row, notes !! noteId = Some row /\ ownedBy row session_id) ->
      notes' = notes
      /\ answer = StatusError 404 "Note not found or not owned by this session").
Proof.
  unfold deleteRoute, sqlDeleteNote.
  destruct (notes !! noteId) as [row|] eqn:Hrow.
  - destruct (sqlEq (note_session_id row) session_id) eqn:Heq; simpl.
    + apply sqlEq_owned in Heq. split; [|split; [|split]].
      * intros r [= <-]. split; [auto|]. intros _. apply lookup_delete_eq.
      * intros other Hne. apply lookup_delete_ne. congruence.
      * reflexivity.
      * intros H. exfalso. apply H. eauto.
    + assert (Hno : ~ ownedBy row session_id).
      { intros H%sqlEq_owned. congruence. }
      split; [|split; [|split]]; auto.
      * intros r [= <-]. split; [congruence | tauto].
      * intros (r & [= <-] & Ho). tauto.
  - simpl. split; [|split; [|split]]; auto.
    + intros r [=].
    + intros (r & [=] & _).
Qed.

(** ** Durations *)

Lemma duration_cases (d : string) :
  (d = "whole" \/ d = "half" \/ d = "quarter" \/ d = "eighth"
   \/ d = "sixteenth")%string
  \/ ((d ∉ DURATION_NAMES) /\ DUR_TO_BEATS !! d = None
      /\ DUR_TO_VEX !! d = None).
Proof.
  destruct (decide (d = "whole"%string)); [tauto|].
  destruct (decide (d = "half"%string)); [tauto|].
  destruct (decide (d = "quarter"%string)); [tauto|].
  destruct (decide (d = "eighth"%string)); [tauto|].
  destruct (decide (d = "sixteenth"%string)); [tauto|].
  right. split; [|split].
  - unfold DURATION_NAMES. rewrite !not_elem_of_cons.
    repeat split; auto. apply not_elem_of_nil.
  - apply not_elem_of_list_to_map_1; simpl;
      rewrite !not_elem_of_cons; repeat split; auto; apply not_elem_of_nil.
  - apply not_elem_of_list_to_map_1; simpl;
      rewrite !not_elem_of_cons; repeat split; auto; apply not_elem_of_nil.
Qed.

Lemma beatCount_malformed (d : string) :
  d ∉ DURATION_NAMES -> beatCount d = 1.
Proof.
  unfold DURATION_NAMES. rewrite !not_elem_of_cons.
  intros (H1 & H2 & H3 & H4 & H5 & _). unfold beatCount.
  apply String.eqb_neq in H1, H2, H3, H4, H5.
  rewrite H1, H2, H3, H4, H5. reflexivity.
Qed.

Lemma inherited_false (d : string) :
  d ∉ OBJECT_PROTOTYPE -> inherited d = false.
Proof. intros H. unfold inherited. apply bool_decide_eq_false. exact H. Qed.

(** On one of the five names both lookups find the data model's
    beat-count, whatever the alternative. *)
Lemma beatsOr_known (dflt : Q) (d : string) :
  d ∈ DURATION_NAMES -> beatsOr dflt d = Num (beatCount d).
Proof.
  unfold DURATION_NAMES. rewrite !elem_of_cons, elem_of_nil.
  intros [->|[->|[->|[->|[->|[]]]]]]; reflexivity.
Qed.

(** A name that is not inherited counts as the data model says: its own
    beat-count, or a quarter's. *)
Lemma beatsOr_plain (d : string) :
  d ∉ OBJECT_PROTOTYPE -> beatsOr 1 d = Num (beatCount d).
Proof.
  intros Hd.
  destruct (duration_cases d) as [[->|[->|[->|[->| ->]]]]|(Hno & Hb & _)];
    [reflexivity..|].
  unfold beatsOr. rewrite Hb, (inherited_false d Hd), (beatCount_malformed d Hno).
  reflexivity.
Qed.

(** The lookup gives the number [durBeatsOr] stands for, or an inherited
    object. *)
Lemma beatsOr_cases (dflt : Q) (d : string) :
  beatsOr dflt d = Num (durBeatsOr dflt d) \/ beatsOr dflt d = Obj.
Proof.
  unfold beatsOr, durBeatsOr. destruct (DUR_TO_BEATS !! d); [left; reflexivity|].
  destruct (inherited d); [right | left]; reflexivity.
Qed.

Lemma beatCount_values (d : string) :
  beatCount d = 4 \/ beatCount d = 2 \/ beatCount d = 1
  \/ beatCount d = 1 # 2 \/ beatCount d = 1 # 4.
Proof.
  unfold beatCount. repeat (destruct (String.eqb d _); [tauto|]). tauto.
Qed.

Lemma beatCount_pos (d : string) : 0 < beatCount d.
Proof.
  destruct (beatCount_values d) as [->|[->|[->|[->| ->]]]]; reflexivity.
Qed.

(** ** Playback schedule *)

(** The two filters of [play] let through exactly the notes of instruments
    that are not muted and, under a solo instrument, are that one. *)
Lemma audible_spec (eng : Engine) (note : Note) :
  audible eng note = true
  <-> (note_instrument_id note ∉ mutedInstruments eng)
      /\ (forall solo, soloInstrument eng = Some solo -> solo <> EmptyString ->
            note_instrument_id note = solo).
Proof.
  unfold audible. rewrite andb_true_iff, !negb_true_iff.
  rewrite bool_decide_eq_false.
  assert (Hsolo : truthyStr (soloInstrument eng)
                  && negb (bool_decide (Some (note_instrument_id note)
                                        = soloInstrument eng)) = false
                  <-> (forall solo, soloInstrument eng = Some solo ->
                         solo <> EmptyString -> note_instrument_id note = solo)).
  { destruct (soloInstrument eng) as [x|]; cbn [truthyStr].
    - destruct (String.eqb_spec x EmptyString) as [->|Hx]; cbn [negb andb].
      + split; [|reflexivity]. intros _ solo [= <-] Hne. congruence.
      + rewrite negb_false_iff, bool_decide_eq_true. split.
        * intros [= ->] solo [= <-] _. reflexivity.
        * intros H. rewrite (H x eq_refl Hx). reflexivity.
    - cbn [andb]. split; [|reflexivity]. intros _ solo [=]. }
  rewrite Hsolo. tauto.
Qed.

Lemma playNote_Some (eng : Engine) (score : Score) (fromMeasure : Z)
    (note : Note) (s : Scheduled) :
  playNote eng score fromMeasure note = Some s ->
  sounding eng fromMeasure note
  /\ sch_instrument s = note_instrument_id note
  /\ sch_pitch s = note_pitch note
  /\ sch_noteStart s
     = (Q2F (currentTime eng) + ruleOffset score fromMeasure note)%float
  /\ (plainDuration note -> sch_noteDur s = ruleLength score note).
Proof.
  unfold playNote, sounding, ruleOffset, ruleLength, plainDuration.
  destruct (note_is_rest note); [discriminate|].
  destruct (Z.ltb_spec (note_measure note) fromMeasure); [discriminate|].
  destruct (audible eng note) eqn:Ha; [|discriminate].
  apply audible_spec in Ha.
  cbn [negb]. intros [= <-]. cbn [sch_instrument sch_pitch sch_noteStart
    sch_noteDur].
  split; [split; [reflexivity|split; [lia|exact Ha]]|].
  split; [reflexivity|]. split; [reflexivity|]. split; [reflexivity|].
  intros Hd. rewrite (beatsOr_plain _ Hd). reflexivity.
Qed.




(** ** Gain envelope *)




(** ** Staff position round trip *)









(** ** Client-side placement *)

Lemma Qgtb_lt (a b : Q) : Qgtb a b = true <-> b < a.
Proof.
  unfold Qgtb. rewrite negb_true_iff, <- not_true_iff_false, Qle_bool_iff.
  split; [apply Qnot_le_lt | apply Qlt_not_le].
Qed.

Lemma Qgtb_le (a b : Q) : Qgtb a b = false <-> a <= b.
Proof.
  unfold Qgtb. rewrite negb_false_iff, Qle_bool_iff. reflexivity.
Qed.

Lemma DUR_TO_BEATS_values (d : string) (q : Q) :
  DUR_TO_BEATS !! d = Some q ->
  q = 4 \/ q = 2 \/ q = 1 \/ q = 1 # 2 \/ q = 1 # 4.
Proof.
  intros H. apply elem_of_list_to_map_2 in H.
  repeat (apply elem_of_cons in H as [[= _ <-]|H]; [tauto|]).
  inversion H.
Qed.

Lemma beatCountSum_nonneg (existing : list Note) : 0 <= beatCountSum existing.
Proof.
  induction existing as [|n l IH]; simpl; [lra|].
  pose proof (beatCount_pos (note_duration n)). lra.
Qed.

(** The reduce of the capacity guard, from any numeric start. *)
Lemma usedBeatsOf_from (existing : list Note) (acc : Q) :
  Forall knownDuration existing ->
  exists u,
    foldl (fun sum n => jsAdd sum (beatsOr 0 (note_duration n))) (Num acc)
      existing = Num u
    /\ u == acc + beatCountSum existing.
Proof.
  revert acc. induction existing as [|n l IH]; intros acc H; simpl.
  - exists acc. split; [reflexivity | ring].
  - apply Forall_cons in H as [Hn Hl].
    rewrite (beatsOr_known 0 _ Hn). cbn [jsAdd].
    destruct (IH (acc + beatCount (note_duration n)) Hl) as (u & -> & Hu).
    exists u. split; [reflexivity|]. rewrite Hu. ring.
Qed.

(** When every note has one of the five durations, the guard's sum is the
    sum of their beat-counts. *)
Lemma usedBeatsOf_known (existing : list Note) :
  Forall knownDuration existing ->
  exists u, usedBeatsOf existing = Num u /\ u == beatCountSum existing.
Proof.
  intros H. destruct (usedBeatsOf_from existing 0 H) as (u & Hu & E).
  exists u. split; [exact Hu|]. rewrite E. ring.
Qed.

Lemma Qmax_Qmin_bound (lo hi x : Q) : hi < Qmax lo (Qmin hi x) -> hi < lo.
Proof.
  unfold Qmax, Qmin.
  destruct (Qle_bool hi x) eqn:E1.
  - destruct (Qle_bool lo hi) eqn:E2; [intros H; lra | auto].
  - assert (Hx : x < hi).
    { apply Qnot_le_lt. rewrite <- Qle_bool_iff. congruence. }
    destruct (Qle_bool lo x) eqn:E2; [intros H; lra | auto].
Qed.



Lemma notesIn_elem (inst : string) (m : Z) (l : list Note) (n : Note) :
  n ∈ notesIn inst m l -> n ∈ l.
Proof. unfold notesIn. intros H%list_elem_of_filter. tauto. Qed.

Lemma notesIn_spec (inst : string) (m : Z) (l : list Note) (n : Note) :
  n ∈ notesIn inst m l <-> n ∈ l /\ inMeasure inst m n.
Proof.
  unfold notesIn, inMeasure. rewrite list_elem_of_filter. tauto.
Qed.

Lemma beatCountSum_notesIn (inst : string) (m : Z) (l : list Note) :
  beatCountSum (notesIn inst m l) = beatsInMeasure inst m l.
Proof.
  unfold notesIn. induction l as [|n l IH]; [reflexivity|].
  rewrite filter_cons. cbn [beatsInMeasure foldr].
  destruct (decide (note_instrument_id n = inst /\ note_measure n = m))
    as [Hn|Hn].
  - rewrite (bool_decide_eq_true_2 _ Hn). cbn [beatCountSum foldr].
    f_equal. exact IH.
  - rewrite (bool_decide_eq_false_2 _ Hn). exact IH.
Qed.

Lemma knownInMeasure_notesIn (inst : string) (m : Z) (l : list Note) :
  knownInMeasure inst m l -> Forall knownDuration (notesIn inst m l).
Proof.
  intros H. apply Forall_forall. intros n Hn.
  apply notesIn_spec in Hn as [Hin Hm]. exact (H n Hin Hm).
Qed.




(** C6 (counterexample). Two notes with a duration the tables do not know
    and a half note: the renderer draws the unknown ones as quarters, so
    the measure of 4 beats is full, and a further quarter makes 5.  The
    capacity guard counts the unknown durations as 0 beats, finds 2 + 1
    within 4, and both the editor and the beginner view send the create
    request; the completed measure then holds 5 beats. *)
Lemma malformed_durations_pass_capacity :
  let existing :=
    [violinNote "a" 1 "bogus"; violinNote "b" 2 "bogus";
     violinNote "c" 3 "half"] in
  beatsInMeasure "violin1" 1 existing == 4
  /\ score_beatsNum seededScore
     < beatsInMeasure "violin1" 1 existing + beatCount "quarter"
  /\ usedBeatsOf (notesIn "violin1" 1 existing) = Num 2
  /\ (exists noteData,
        out_calls (placeNote acceptAll (editorOn "quarter" existing) "A4" 4)
        = [ApiAddNote noteData]
        /\ nd_beat noteData = 4 /\ nd_duration noteData = "quarter"%string)
  /\ (exists noteData,
        out_calls (onClick acceptAll (beginnerOn existing) None 3 "A4")
        = [ApiAddNote noteData]
        /\ nd_beat noteData == 4 /\ nd_duration noteData = "quarter"%string)
  /\ (exists events,
        buildMeasureNotes (restFuel 4)
          (ed_notes (out_state (placeNote acceptAll
                                  (editorOn "quarter" existing) "A4" 4)))
          "treble" D_major 4 = Some events
        /\ totalBeats events == 5).
Proof.
  cbv zeta. split; [vm_compute; reflexivity|].
  split; [vm_compute; reflexivity|].
  split; [vm_compute; reflexivity|].
  split; [eexists; split; [vm_compute; reflexivity|]; split; reflexivity|].
  split; [eexists; split; [vm_compute; reflexivity|]; split; reflexivity|].
  eexists. split; vm_compute; reflexivity.
Qed.

(** C6 (as the code has it). Where every note already in the instrument
    and measure has one of the five durations, a placement whose
    beat-count would take the sum of their beat-counts past the measure's
    capacity, or whose note would run past the end of the measure, is
    dropped on the spot: no request is sent and the editor (or beginner
    view) is left as it was.  With 3.5 beats used in a 4-beat measure, a
    half note is refused. *)
Theorem placement_over_capacity_rejected (srv : Server) (pitch : string) :
  (forall (ed : Editor) (beat : Q),
      let beatsNum := score_beatsNum (ed_score ed) in
      let used :=
        beatsInMeasure (ed_instrumentId ed) (ed_measure ed) (ed_notes ed) in
      let newNoteBeats := beatCount (ed_selectedDuration ed) in
      knownInMeasure (ed_instrumentId ed) (ed_measure ed) (ed_notes ed) ->
      ed_selectedDuration ed ∈ DURATION_NAMES ->
      beatsNum < used + newNoteBeats
      \/ beatsNum < beat + newNoteBeats - 1 ->
      placeNote srv ed pitch beat = mkOutcome [] true ed)
  /\ (forall (bg : Beginner) (col : Z),
       let beatsNum := score_beatsNum (bg_score bg) in
       let used :=
         beatsInMeasure (bg_currentInstrument bg) (bg_currentMeasure bg)
           (bg_notes bg) in
       let newNoteBeats := beatCount "quarter" in
       knownInMeasure (bg_currentInstrument bg) (bg_currentMeasure bg)
         (bg_notes bg) ->
       beatsNum < used + newNoteBeats
       \/ beatsNum < columnBeat beatsNum col + newNoteBeats - 1 ->
       onClick srv bg None col pitch = mkOutcome [] false bg)
  /\ (let full :=
        [violinNote "a" 1 "half"; violinNote "b" 3 "quarter";
         violinNote "c" 4 "eighth"] in
      beatsInMeasure "violin1" 1 full == 35 # 10
      /\ forall beat,
          placeNote srv (editorOn "half" full) pitch beat
          = mkOutcome [] true (editorOn "half" full)).
Proof.
  assert (Hed : forall (ed : Editor) (beat : Q),
      knownInMeasure (ed_instrumentId ed) (ed_measure ed) (ed_notes ed) ->
      ed_selectedDuration ed ∈ DURATION_NAMES ->
      score_beatsNum (ed_score ed)
      < beatsInMeasure (ed_instrumentId ed) (ed_measure ed) (ed_notes ed)
        + beatCount (ed_selectedDuration ed)
      \/ score_beatsNum (ed_score ed)
         < beat + beatCount (ed_selectedDuration ed) - 1 ->
      placeNote srv ed pitch beat = mkOutcome [] true ed).
  { intros ed beat Hknown Hsel H. unfold placeNote.
    apply knownInMeasure_notesIn in Hknown.
    destruct (usedBeatsOf_known _ Hknown) as (u & -> & Hu).
    rewrite beatCountSum_notesIn in Hu.
    rewrite (beatsOr_known 1 _ Hsel). cbn [jsAdd jsSub jsGtNum].
    destruct H as [H|H].
    - rewrite <- Hu in H. apply Qgtb_lt in H. rewrite H. reflexivity.
    - apply Qgtb_lt in H. rewrite H, orb_true_r. reflexivity. }
  split; [|split].
  - intros ed beat beatsNum used newNoteBeats. apply Hed.
  - intros bg col beatsNum used newNoteBeats Hknown H. unfold onClick, getPos.
    destruct (bg_dragging bg); [reflexivity|].
    destruct (bg_hasLayout bg); [|reflexivity].
    fold beatsNum.
    apply knownInMeasure_notesIn in Hknown.
    destruct (usedBeatsOf_known _ Hknown) as (u & -> & Hu).
    rewrite beatCountSum_notesIn in Hu. fold used in Hu.
    cbn [jsAdd jsGtNum].
    unfold newNoteBeats in H. change (beatCount "quarter") with 1 in H.
    assert (Hover : beatsNum < u + 1).
    { rewrite Hu. destruct H as [H|H]; [exact H|].
      assert (Hb : beatsNum < columnBeat beatsNum col) by lra.
      unfold columnBeat in Hb. apply Qmax_Qmin_bound in Hb.
      assert (Hs : 0 <= used).
      { unfold used. rewrite <- beatCountSum_notesIn.
        apply beatCountSum_nonneg. }
      lra. }
    apply Qgtb_lt in Hover. rewrite Hover. reflexivity.
  - cbv zeta. split; [vm_compute; reflexivity|]. intros beat.
    apply Hed.
    + intros n Hn _. unfold DURATION_NAMES.
      repeat (apply elem_of_cons in Hn as [->|Hn];
              [cbn [note_duration violinNote]; rewrite !elem_of_cons; tauto|]).
      inversion Hn.
    + vm_compute. set_solver.
    + left. vm_compute. reflexivity.
Qed.

Lemma placement_over_capacity_rejected_witness :
  let full :=
    [violinNote "a" 1 "half"; violinNote "b" 3 "quarter";
     violinNote "c" 4 "eighth"] in
  placeNote acceptAll (editorOn "half" full) "A4" 1
  = mkOutcome [] true (editorOn "half" full)
  /\ onClick acceptAll (beginnerOn full) None 1 "A4"
     = mkOutcome [] false (beginnerOn full).
Proof.
  cbv zeta.
  destruct (placement_over_capacity_rejected acceptAll "A4") as
    (He & Hb & _).
  assert (Hknown : knownInMeasure "violin1" 1
            [violinNote "a" 1 "half"; violinNote "b" 3 "quarter";
             violinNote "c" 4 "eighth"]).
  { intros n Hn _. unfold DURATION_NAMES.
    repeat (apply elem_of_cons in Hn as [->|Hn];
            [cbn [note_duration violinNote]; rewrite !elem_of_cons; tauto|]).
    inversion Hn. }
  split.
  - apply He.
    + exact Hknown.
    + unfold DURATION_NAMES. cbn [ed_selectedDuration editorOn].
      rewrite !elem_of_cons. tauto.
    + left. vm_compute. reflexivity.
  - apply Hb.
    + exact Hknown.
    + left. vm_compute. reflexivity.
Defined.

(** ** Greedy rest fill *)

Lemma natQ_S (k : nat) : natQ (S k) == natQ k + 1.
Proof.
  unfold natQ. rewrite Nat2Z.inj_succ. unfold Z.succ.
  rewrite inject_Z_plus. reflexivity.
Qed.

Lemma natQ_nonneg (k : nat) : 0 <= natQ k.
Proof.
  unfold natQ. change 0 with (inject_Z 0). rewrite <- Zle_Qle. lia.
Qed.

Lemma natQ_le_1 (k : nat) : (k <= 1)%nat -> natQ k <= 1.
Proof.
  intros H. unfold natQ. change 1 with (inject_Z 1). rewrite <- Zle_Qle. lia.
Qed.

Lemma Qgeb_le (a b : Q) : Qgeb a b = true <-> b <= a.
Proof. unfold Qgeb. apply Qle_bool_iff. Qed.

Lemma Qgeb_lt (a b : Q) : Qgeb a b = false <-> a < b.
Proof.
  unfold Qgeb. rewrite <- not_true_iff_false, Qle_bool_iff.
  split; [apply Qnot_le_lt | apply Qlt_not_le].
Qed.

(** The inner loop: it stops after at most [n] rests when [rem] is below
    [n] durations plus the threshold, and then [rem] is below the
    threshold. *)
Lemma restWhile_spec (clef : string) (d : Q) (v : string) :
  EPS < d ->
  forall (n : nat) (arr : list StaveNote) (rem : Q),
    rem < d * natQ n + (d - EPS) ->
    exists (k : nat) (rem' : Q),
      (k <= n)%nat
      /\ rem' == rem - natQ k * d
      /\ rem' < d - EPS
      /\ (- EPS <= rem -> - EPS <= rem')
      /\ forall fuel, (n < fuel)%nat ->
           restWhile fuel clef d v arr rem
           = Some (arr ++ replicate k (restNote clef v), rem').
Proof.
  intros Hd n. induction n as [|n IH]; intros arr rem Hrem.
  - exists 0%nat, rem. split; [lia|].
    assert (Hlt : rem < d - EPS).
    { change (natQ 0) with 0 in Hrem. lra. }
    split; [change (natQ 0) with 0; ring|]. split; [exact Hlt|].
    split; [auto|]. intros [|fuel] Hf; [lia|]. simpl.
    apply Qgeb_lt in Hlt. rewrite Hlt, app_nil_r. reflexivity.
  - destruct (Qgeb rem (d - EPS)) eqn:E.
    + apply Qgeb_le in E. rewrite natQ_S in Hrem.
      destruct (IH (arr ++ [restNote clef v]) (rem - d)) as
        (k & rem' & Hk & Heq & Hlt & Hge & Hrun); [lra|].
      exists (S k), rem'. split; [lia|].
      split; [rewrite natQ_S, Heq; ring|]. split; [exact Hlt|].
      split; [intros _; apply Hge; lra|].
      intros [|fuel] Hf; [lia|]. simpl.
      apply Qgeb_le in E. rewrite E, Hrun by lia.
      rewrite <- app_assoc. reflexivity.
    + exists 0%nat, rem. split; [lia|].
      split; [change (natQ 0) with 0; ring|].
      split; [apply Qgeb_lt; exact E|]. split; [auto|].
      intros [|fuel] Hf; [lia|]. simpl. rewrite E, app_nil_r. reflexivity.
Qed.

Lemma EPS_lt_durations :
  EPS < 4 /\ EPS < 2 /\ EPS < 1 /\ EPS < 1 # 2 /\ EPS < 1 # 4.
Proof. repeat split. Qed.

(** The five loops in a row. *)
Lemma pushRestsRem_spec (arr : list StaveNote) (beats : Q) (clef : string)
    (n : nat) :
  beats <= natQ n ->
  exists (kw kh kq ke ks : nat) (rem' : Q),
    (kh <= 1)%nat /\ (kq <= 1)%nat /\ (ke <= 1)%nat /\ (ks <= 1)%nat
    /\ rem' == beats - (natQ kw * 4 + natQ kh * 2 + natQ kq * 1
                        + natQ ke * (1 # 2) + natQ ks * (1 # 4))
    /\ rem' < (1 # 4) - EPS
    /\ (- EPS <= beats -> - EPS <= rem')
    /\ forall fuel, (S n < fuel)%nat ->
         pushRestsRem fuel arr beats clef
         = Some (arr ++ restRun clef kw kh kq ke ks, rem').
Proof.
  intros Hn. pose proof (natQ_nonneg n) as Hn0.
  destruct EPS_lt_durations as (Hw & Hh & Hq & He & Hs).
  unfold EPS in *.
  destruct (restWhile_spec clef 4 "w" Hw n arr beats) as
    (kw & r1 & _ & E1 & L1 & G1 & R1); [unfold EPS; lra|].
  destruct (restWhile_spec clef 2 "h" Hh 1
              (arr ++ replicate kw (restNote clef "w")) r1) as
    (kh & r2 & Kh & E2 & L2 & G2 & R2);
    [change (natQ 1) with 1; unfold EPS in *; lra|].
  destruct (restWhile_spec clef 1 "q" Hq 1
              ((arr ++ replicate kw (restNote clef "w"))
               ++ replicate kh (restNote clef "h")) r2) as
    (kq & r3 & Kq & E3 & L3 & G3 & R3);
    [change (natQ 1) with 1; unfold EPS in *; lra|].
  destruct (restWhile_spec clef (1 # 2) "8" He 1
              (((arr ++ replicate kw (restNote clef "w"))
                ++ replicate kh (restNote clef "h"))
               ++ replicate kq (restNote clef "q")) r3) as
    (ke & r4 & Ke & E4 & L4 & G4 & R4);
    [change (natQ 1) with 1; unfold EPS in *; lra|].
  destruct (restWhile_spec clef (1 # 4) "16" Hs 1
              ((((arr ++ replicate kw (restNote clef "w"))
                 ++ replicate kh (restNote clef "h"))
                ++ replicate kq (restNote clef "q"))
               ++ replicate ke (restNote clef "8")) r4) as
    (ks & r5 & Ks & E5 & L5 & G5 & R5);
    [change (natQ 1) with 1; unfold EPS in *; lra|].
  exists kw, kh, kq, ke, ks, r5.
  split; [exact Kh|]. split; [exact Kq|]. split; [exact Ke|].
  split; [exact Ks|].
  split; [rewrite E5, E4, E3, E2, E1; ring|].
  split; [exact L5|].
  split; [intros H; auto 10|].
  intros fuel Hf. unfold pushRestsRem, REST_DURATIONS.
  cbn [foldl mbind option_bind fst snd].
  rewrite R1 by lia. cbn [mbind option_bind fst snd].
  rewrite R2 by lia. cbn [mbind option_bind fst snd].
  rewrite R3 by lia. cbn [mbind option_bind fst snd].
  rewrite R4 by lia. cbn [mbind option_bind fst snd].
  rewrite R5 by lia. unfold restRun.
  rewrite <- !app_assoc. reflexivity.
Qed.

Lemma totalBeats_app (a b : list StaveNote) :
  totalBeats (a ++ b) == totalBeats a + totalBeats b.
Proof.
  induction a as [|e a IH]; simpl; [ring|]. rewrite IH. ring.
Qed.

Lemma totalBeats_replicate (k : nat) (e : StaveNote) :
  totalBeats (replicate k e) == natQ k * eventBeats e.
Proof.
  induction k as [|k IH]; [change (natQ 0) with 0; simpl; ring|].
  rewrite natQ_S. simpl. rewrite IH. ring.
Qed.

Lemma totalBeats_restRun (clef : string) (kw kh kq ke ks : nat) :
  totalBeats (restRun clef kw kh kq ke ks)
  == natQ kw * 4 + natQ kh * 2 + natQ kq * 1 + natQ ke * (1 # 2)
     + natQ ks * (1 # 4).
Proof.
  unfold restRun. rewrite !totalBeats_app, !totalBeats_replicate.
  change (eventBeats (restNote clef "w")) with 4.
  change (eventBeats (restNote clef "h")) with 2.
  change (eventBeats (restNote clef "q")) with 1.
  change (eventBeats (restNote clef "8")) with (1 # 2).
  change (eventBeats (restNote clef "16")) with (1 # 4).
  ring.
Qed.

Lemma restRun_beats (clef : string) (kw kh kq ke ks : nat) (r : StaveNote) :
  r ∈ restRun clef kw kh kq ke ks -> 1 # 4 <= eventBeats r.
Proof.
  unfold restRun. rewrite !elem_of_app.
  intros [H|[H|[H|[H|H]]]]; apply elem_of_replicate in H as [-> _];
    vm_compute; discriminate.
Qed.

Lemma natQ_ceiling (q : Q) : q <= natQ (Z.to_nat (Qceiling q)).
Proof.
  pose proof (Qle_ceiling q) as H. unfold natQ.
  destruct (Z.le_gt_cases 0 (Qceiling q)) as [Hz|Hz].
  - rewrite Z2Nat.id by exact Hz. exact H.
  - assert (Hneg : inject_Z (Qceiling q) <= inject_Z 0)
      by (rewrite <- Zle_Qle; lia).
    replace (Z.to_nat (Qceiling q)) with 0%nat by lia.
    change (inject_Z (Z.of_nat 0)) with 0. change (inject_Z 0) with 0 in Hneg.
    lra.
Qed.

(** *** Whole numbers of sixteenths *)

Lemma onGrid_proper (a b : Q) : a == b -> onGrid a -> onGrid b.
Proof. intros E [k Hk]. exists k. rewrite <- E. exact Hk. Qed.

Lemma onGrid_plus (a b : Q) : onGrid a -> onGrid b -> onGrid (a + b).
Proof.
  intros [x Hx] [y Hy]. exists (x + y)%Z.
  rewrite inject_Z_plus, Hx, Hy. ring.
Qed.

Lemma onGrid_minus (a b : Q) : onGrid a -> onGrid b -> onGrid (a - b).
Proof.
  intros [x Hx] [y Hy]. exists (x - y)%Z.
  unfold Z.sub. rewrite inject_Z_plus, inject_Z_opp, Hx, Hy. ring.
Qed.

Lemma onGrid_Z (z : Z) : onGrid (inject_Z z).
Proof.
  exists (4 * z)%Z. rewrite inject_Z_mult. change (inject_Z 4) with 4. ring.
Qed.

Lemma onGrid_natQ_mul (k : nat) (d : Q) : onGrid d -> onGrid (natQ k * d).
Proof.
  intros [x Hx]. exists (Z.of_nat k * x)%Z.
  rewrite inject_Z_mult, Hx. unfold natQ. ring.
Qed.

Lemma onGrid_durations :
  onGrid 4 /\ onGrid 2 /\ onGrid 1 /\ onGrid (1 # 2) /\ onGrid (1 # 4).
Proof.
  split; [exists 16%Z|split; [exists 8%Z|split;
    [exists 4%Z|split; [exists 2%Z|exists 1%Z]]]]; reflexivity.
Qed.

(** A grid value inside the tolerance window of the fill is zero. *)
Lemma onGrid_zero (q : Q) :
  onGrid q -> - EPS <= q -> q < (1 # 4) - EPS -> q == 0.
Proof.
  intros [k Hk] Hlo Hhi. unfold EPS in *. rewrite Hk in *.
  remember (inject_Z k) as x eqn:Ex.
  assert (H1 : -1 < x) by lra.
  assert (H2 : x < 1) by lra.
  subst x. change (-1) with (inject_Z (-1)) in H1.
  change 1 with (inject_Z 1) in H2.
  rewrite <- Zlt_Qlt in H1, H2.
  assert (k = 0%Z) by lia. subst k. reflexivity.
Qed.

Lemma restRun_residual_onGrid (clef : string) (kw kh kq ke ks : nat)
    (beats : Q) :
  onGrid beats -> onGrid (beats - totalBeats (restRun clef kw kh kq ke ks)).
Proof.
  intros Hb. destruct onGrid_durations as (Hw & Hh & Hq & He & Hs).
  apply onGrid_minus; [exact Hb|].
  eapply onGrid_proper; [symmetry; apply totalBeats_restRun|].
  repeat apply onGrid_plus; apply onGrid_natQ_mul; assumption.
Qed.

(** What a fill of [beats] does, for every array it is appended to. *)
Lemma pushRests_fill (arr : list StaveNote) (beats : Q) (clef : string)
    (n : nat) :
  beats <= natQ n ->
  exists kw kh kq ke ks : nat,
    let rests := restRun clef kw kh kq ke ks in
    (forall fuel, (S n < fuel)%nat ->
       pushRests fuel arr beats clef = Some (arr ++ rests))
    /\ ((kh <= 1)%nat /\ (kq <= 1)%nat /\ (ke <= 1)%nat /\ (ks <= 1)%nat)
    /\ beats - totalBeats rests < (1 # 4) - EPS
    /\ (- EPS <= beats -> - EPS <= beats - totalBeats rests)
    /\ (- EPS <= beats -> onGrid beats -> totalBeats rests == beats).
Proof.
  intros Hn.
  destruct (pushRestsRem_spec arr beats clef n Hn) as
    (kw & kh & kq & ke & ks & rem' & Kh & Kq & Ke & Ks & E & L & G & R).
  exists kw, kh, kq, ke, ks. cbv zeta.
  rewrite <- totalBeats_restRun in E.
  split; [|split; [|split; [|split]]].
  - intros fuel Hf. unfold pushRests. rewrite (R fuel Hf). reflexivity.
  - auto.
  - rewrite <- E. exact L.
  - intros H. rewrite <- E. auto.
  - intros Hlo Hgrid.
    assert (Hz : beats - totalBeats (restRun clef kw kh kq ke ks) == 0).
    { apply onGrid_zero.
      - apply restRun_residual_onGrid. exact Hgrid.
      - rewrite <- E. auto.
      - rewrite <- E. exact L. }
    lra.
Qed.

(** C8 (counterexample). A gap of a tenth of a beat is above the 0.001
    tolerance, so it is handed to the fill; no rest fits and the whole
    tenth is left over. *)
Lemma pushRests_leaves_a_tenth :
  EPS < 1 # 10
  /\ pushRests (restFuel (1 # 10)) [] (1 # 10) "treble" = Some []
  /\ EPS <= (1 # 10) - totalBeats [].
Proof. split; [|split]; vm_compute; try reflexivity; discriminate. Qed.

(** C8 (as the code has it). A gap above the tolerance is filled longest
    first with wholes, then at most one half, one quarter, one eighth and
    one sixteenth; no rest is shorter than a sixteenth.  What is left
    over lies between -0.001 and 0.249 beats (a remainder under 0.249 is
    dropped), and is zero when the gap is a whole number of
    sixteenths. *)
Theorem pushRests_greedy (arr : list StaveNote) (beats : Q) (clef : string) :
  EPS < beats ->
  exists kw kh kq ke ks : nat,
    let rests := restRun clef kw kh kq ke ks in
    let residual := beats - totalBeats rests in
    (forall fuel, (restFuel beats <= fuel)%nat ->
       pushRests fuel arr beats clef = Some (arr ++ rests))
    /\ ((kh <= 1)%nat /\ (kq <= 1)%nat /\ (ke <= 1)%nat /\ (ks <= 1)%nat)
    /\ (forall r, r ∈ rests -> 1 # 4 <= eventBeats r)
    /\ - EPS <= residual
    /\ residual < (1 # 4) - EPS
    /\ (onGrid beats -> residual == 0).
Proof.
  intros Hpos.
  destruct (pushRests_fill arr beats clef (Z.to_nat (Qceiling beats))
              (natQ_ceiling beats)) as
    (kw & kh & kq & ke & ks & Hrun & Hk & Hhi & Hlo & Hgrid).
  assert (Hge : - EPS <= beats) by (unfold EPS in *; lra).
  exists kw, kh, kq, ke, ks. cbv zeta in *.
  split; [|split; [|split; [|split; [|split]]]].
  - intros fuel Hf. apply Hrun. unfold restFuel in Hf. lia.
  - exact Hk.
  - apply restRun_beats.
  - auto.
  - exact Hhi.
  - intros Hg. rewrite (Hgrid Hge Hg). ring.
Qed.

Lemma pushRests_greedy_witness :
  EPS < 2
  /\ exists kw kh kq ke ks : nat,
       pushRests (restFuel 2) [] 2 "treble"
       = Some ([] ++ restRun "treble" kw kh kq ke ks)
       /\ (onGrid 2 -> 2 - totalBeats (restRun "treble" kw kh kq ke ks) == 0).
Proof.
  split; [reflexivity|].
  destruct (pushRests_greedy [] 2 "treble" eq_refl) as
    (kw & kh & kq & ke & ks & Hrun & _ & _ & _ & _ & Hgrid).
  exists kw, kh, kq, ke, ks. split; [apply Hrun; constructor | exact Hgrid].
Defined.

(** ** Measure completion *)

Lemma durBeatsOr_pos (d : string) : 0 < durBeatsOr 1 d.
Proof.
  unfold durBeatsOr.
  destruct (DUR_TO_BEATS !! d) as [q|] eqn:E; simpl; [|reflexivity].
  destruct (DUR_TO_BEATS_values d q E) as [->|[->|[->|[->| ->]]]];
    reflexivity.
Qed.

Lemma durBeatsOr_onGrid (d : string) : onGrid (durBeatsOr 1 d).
Proof.
  destruct onGrid_durations as (Hw & Hh & Hq & He & Hs).
  unfold durBeatsOr.
  destruct (DUR_TO_BEATS !! d) as [q|] eqn:E; simpl; [|exact Hq].
  destruct (DUR_TO_BEATS_values d q E) as [->|[->|[->|[->| ->]]]];
    assumption.
Qed.

Lemma beatCount_onGrid (d : string) : onGrid (beatCount d).
Proof.
  destruct onGrid_durations as (Hw & Hh & Hq & He & Hs).
  destruct (beatCount_values d) as [->|[->|[->|[->| ->]]]]; assumption.
Qed.

(** A stave note weighs what its stored note does. *)
Lemma eventBeats_noteEvent (clef : string)
    (keyAccidentals : gmap string string) (n : Note) :
  plainDuration n ->
  eventBeats (noteEvent clef keyAccidentals n) = beatCount (note_duration n).
Proof.
  unfold plainDuration. intros Hd.
  unfold noteEvent, eventBeats, durVexOr.
  destruct (duration_cases (note_duration n)) as
    [[->|[->|[->|[->| ->]]]]|(Hno & _ & ->)];
    try (destruct (note_is_rest n); reflexivity).
  rewrite (inherited_false _ Hd), (beatCount_malformed _ Hno).
  destruct (note_is_rest n); reflexivity.
Qed.

Lemma restRun_synth (clef : string) (kw kh kq ke ks : nat) :
  Forall (synthRest clef) (restRun clef kw kh kq ke ks).
Proof.
  unfold restRun. rewrite !Forall_app.
  repeat split; apply Forall_forall; intros e [-> _]%elem_of_replicate;
    eexists; (split; [|reflexivity]); simpl; set_solver.
Qed.

(** *** Sorting by beat *)

Lemma insertByBeat_perm (n : Note) (l : list Note) :
  insertByBeat n l ≡ₚ n :: l.
Proof.
  induction l as [|m l IH]; simpl; [reflexivity|].
  destruct (Qle_bool (note_beat n) (note_beat m)); [reflexivity|].
  rewrite IH. apply Permutation_swap.
Qed.

Lemma sortByBeat_perm (notes : list Note) : sortByBeat notes ≡ₚ notes.
Proof.
  induction notes as [|n l IH]; simpl; [reflexivity|].
  rewrite insertByBeat_perm, IH. reflexivity.
Qed.

Lemma insertByBeat_after (n : Note) (l : list Note) :
  StronglySorted noteAfter l ->
  Forall (disjointSpans n) l ->
  StronglySorted noteAfter (insertByBeat n l).
Proof.
  induction l as [|m l IH]; intros Hs Hd; simpl.
  - repeat constructor.
  - apply StronglySorted_inv in Hs as [Hs Hm].
    apply Forall_cons in Hd as [Hnm Hd].
    pose proof (beatCount_pos (note_duration n)) as Pn.
    pose proof (beatCount_pos (note_duration m)) as Pm.
    unfold disjointSpans, noteAfter, noteEnd in *.
    destruct (Qle_bool (note_beat n) (note_beat m)) eqn:E.
    + apply Qle_bool_iff in E. constructor.
      * constructor; assumption.
      * constructor; [lra|].
        rewrite Forall_forall in Hm, Hd. apply Forall_forall. intros x Hx.
        specialize (Hm x Hx). specialize (Hd x Hx).
        pose proof (beatCount_pos (note_duration x)). lra.
    + assert (Hlt : note_beat m < note_beat n).
      { apply Qnot_le_lt. rewrite <- Qle_bool_iff. congruence. }
      constructor; [auto|].
      rewrite insertByBeat_perm. constructor; [lra | exact Hm].
Qed.

Lemma sortByBeat_after (notes : list Note) :
  ForallOrdPairs disjointSpans notes ->
  StronglySorted noteAfter (sortByBeat notes).
Proof.
  induction 1 as [|n l Hn Hl IH]; simpl; [constructor|].
  apply insertByBeat_after; [exact IH|].
  rewrite sortByBeat_perm. apply List.Forall_forall.
  rewrite List.Forall_forall in Hn. exact Hn.
Qed.

Lemma inSequence_proper (B c c' : Q) (ns : list Note) :
  c == c' -> inSequence B c ns -> inSequence B c' ns.
Proof.
  intros E. destruct ns as [|n ns]; simpl.
  - rewrite E. auto.
  - rewrite E. auto.
Qed.

Lemma sorted_inSequence (B : Q) (ns : list Note) (c : Q) :
  StronglySorted noteAfter ns ->
  c <= B + 1 ->
  (forall n, n ∈ ns ->
     c <= note_beat n /\ onGrid (note_beat n) /\ noteEnd n <= B + 1) ->
  inSequence B c ns.
Proof.
  revert c. induction ns as [|n ns IH]; intros c Hs Hc Hall; simpl.
  - exact Hc.
  - apply StronglySorted_inv in Hs as [Hs Hn].
    destruct (Hall n) as (H1 & H2 & H3); [left|].
    repeat (split; [assumption|]).
    apply IH; [exact Hs | exact H3 |].
    intros m Hm. destruct (Hall m) as (_ & G2 & G3); [right; exact Hm|].
    rewrite Forall_forall in Hn. specialize (Hn m Hm).
    unfold noteAfter in Hn. auto.
Qed.

(** Two grid values no further apart than the tolerance are equal. *)
Lemma onGrid_close (a b : Q) :
  onGrid a -> onGrid b -> a <= b -> b <= a + EPS -> b == a.
Proof.
  intros Ha Hb Hle Hclose.
  assert (H : b - a == 0).
  { apply onGrid_zero; [apply onGrid_minus; assumption| |];
      unfold EPS in *; lra. }
  lra.
Qed.

(** *** The loop over the sorted notes *)

Lemma measureStep_spec (clef : string) (keyAccidentals : gmap string string)
    (B : Q) (N : nat) (pre : list StaveNote) (c : Q) (n : Note) :
  B <= natQ N -> 1 <= c -> onGrid c ->
  c <= note_beat n -> onGrid (note_beat n) -> noteEnd n <= B + 1 ->
  plainDuration n ->
  exists (rests : list StaveNote) (c1 : Q),
    (forall fuel, (S N < fuel)%nat ->
       measureStep fuel clef keyAccidentals (pre, Num c) n
       = Some (pre ++ rests ++ [noteEvent clef keyAccidentals n], Num c1))
    /\ c1 == noteEnd n
    /\ Forall (synthRest clef) rests
    /\ totalBeats rests == note_beat n - c.
Proof.
  intros HB Hc1 Hcg Hle Hng Hend Hplain.
  pose proof (beatCount_pos (note_duration n)) as Hpos.
  unfold noteEnd in *. unfold measureStep.
  rewrite (beatsOr_plain _ Hplain). cbn [jsAdd jsSub numGtJs pushRestsJs].
  destruct (Qgtb (note_beat n) (c + EPS)) eqn:E.
  - apply Qgtb_lt in E.
    destruct (pushRests_fill pre (note_beat n - c) clef N) as
      (kw & kh & kq & ke & ks & Hrun & _ & _ & _ & Hgrid); [lra|].
    cbv zeta in *.
    exists (restRun clef kw kh kq ke ks),
      (note_beat n + beatCount (note_duration n)).
    split; [|split; [reflexivity|split]].
    + intros fuel Hf. rewrite (Hrun fuel Hf).
      cbn [mbind option_bind jsAdd]. rewrite <- app_assoc. reflexivity.
    + apply restRun_synth.
    + apply Hgrid; [unfold EPS in *; lra|].
      apply onGrid_minus; assumption.
  - apply Qgtb_le in E.
    pose proof (onGrid_close c (note_beat n) Hcg Hng Hle E) as Heq.
    exists [], (c + beatCount (note_duration n)).
    split; [|split; [|split]].
    + intros fuel Hf. cbn [mbind option_bind jsAdd]. reflexivity.
    + rewrite Heq. reflexivity.
    + constructor.
    + simpl. lra.
Qed.

Lemma measureLoop_spec (clef : string) (keyAccidentals : gmap string string)
    (B : Q) (N : nat) :
  B <= natQ N ->
  forall (ns : list Note) (pre : list StaveNote) (c : Q),
    1 <= c -> onGrid c -> inSequence B c ns -> Forall plainDuration ns ->
    exists (events : list StaveNote) (c' : Q),
      (forall fuel, (S N < fuel)%nat ->
         measureLoop fuel clef keyAccidentals (pre, Num c) ns
         = Some (pre ++ events, Num c'))
      /\ totalBeats events == c' - c
      /\ onGrid c' /\ 1 <= c' /\ c' <= B + 1
      /\ forall tail, Forall (synthRest clef) tail ->
           Interleaved clef keyAccidentals ns (events ++ tail).
Proof.
  intros HB ns. induction ns as [|n ns IH]; intros pre c Hc1 Hcg Hseq Hplain.
  - exists [], c. simpl in Hseq.
    split; [intros fuel _; simpl; rewrite app_nil_r; reflexivity|].
    split; [simpl; ring|]. repeat (split; [assumption|]).
    intros tail Ht. simpl. constructor. exact Ht.
  - simpl in Hseq. destruct Hseq as (Hle & Hng & Hend & Hseq).
    apply Forall_cons in Hplain as [Hpn Hplain].
    destruct (measureStep_spec clef keyAccidentals B N pre c n
                HB Hc1 Hcg Hle Hng Hend Hpn) as
      (rests & c1 & Hstep & Ec1 & Hsynth & Hrests).
    pose proof (beatCount_pos (note_duration n)) as Hpos.
    assert (Hend' : noteEnd n == note_beat n + beatCount (note_duration n))
      by reflexivity.
    destruct (IH (pre ++ rests ++ [noteEvent clef keyAccidentals n]) c1) as
      (events & c' & Hloop & Htot & Hg' & H1' & HB' & Hinter).
    + lra.
    + apply (onGrid_proper (noteEnd n)); [symmetry; exact Ec1|].
      apply onGrid_plus; [exact Hng | apply beatCount_onGrid].
    + apply (inSequence_proper B (noteEnd n)); [symmetry; exact Ec1|].
      exact Hseq.
    + exact Hplain.
    + exists (rests ++ noteEvent clef keyAccidentals n :: events), c'.
      split; [|split; [|split; [|split; [|split]]]]; try assumption.
      * intros fuel Hf. cbn [measureLoop].
        rewrite (Hstep fuel Hf). cbn [mbind option_bind].
        rewrite (Hloop fuel Hf). rewrite <- !app_assoc. reflexivity.
      * rewrite totalBeats_app. simpl.
        rewrite (eventBeats_noteEvent _ _ _ Hpn), Hrests, Htot. lra.
      * intros tail Ht. rewrite <- app_assoc. simpl.
        constructor; [exact Hsynth | apply Hinter; exact Ht].
Qed.

(** C1 (counterexample). One half note on beat 4 of a 4-beat measure: its
    beat-count is within the measure and nothing overlaps it, yet the
    completed measure holds 5 beats.  Likewise a quarter note on beat 1.1
    leaves the measure at 3.75 beats. *)
Lemma late_half_note_overfills :
  let late := [violinNote "n" 4 "half"] in
  let offGrid := [violinNote "n" (11 # 10) "quarter"] in
  beatCount "half" <= 4
  /\ ForallOrdPairs disjointSpans late
  /\ (exists events,
        buildMeasureNotes (restFuel 4) late "treble" D_major 4 = Some events
        /\ totalBeats events == 5 /\ ~ totalBeats events == 4)
  /\ ForallOrdPairs disjointSpans offGrid
  /\ (exists events,
        buildMeasureNotes (restFuel 4) offGrid "treble" D_major 4 = Some events
        /\ totalBeats events == 15 # 4 /\ ~ totalBeats events == 4).
Proof.
  cbv zeta. split; [vm_compute; discriminate|].
  split; [repeat constructor|].
  split; [eexists; split; [vm_compute; reflexivity|];
          split; vm_compute; congruence|].
  split; [repeat constructor|].
  eexists; split; [vm_compute; reflexivity|]; split; vm_compute; congruence.
Qed.

(** C1 (as the code has it). In a measure of [B] beats, [B] a whole
    number of sixteenths, take notes whose spans do not overlap, each
    starting on the sixteenth grid at beat 1 or later and ending inside the
    measure, none with a duration that names a property inherited from
    [Object.prototype] (a duration that is merely unknown counts as a
    quarter).  Then [buildMeasureNotes] returns the stave notes of the
    input in beat order with synthesized rests before, between and after
    them, and their beat-counts sum to exactly [B]. *)
Theorem buildMeasureNotes_fills (notes : list Note) (clef : string)
    (keyAccidentals : gmap string string) (B : Q) :
  0 <= B -> onGrid B ->
  ForallOrdPairs disjointSpans notes ->
  Forall plainDuration notes ->
  (forall n, n ∈ notes ->
     1 <= note_beat n /\ onGrid (note_beat n) /\ noteEnd n <= B + 1) ->
  exists events : list StaveNote,
    (forall fuel, (restFuel B <= fuel)%nat ->
       buildMeasureNotes fuel notes clef keyAccidentals B = Some events)
    /\ totalBeats events == B
    /\ sortByBeat notes ≡ₚ notes
    /\ StronglySorted noteAfter (sortByBeat notes)
    /\ Interleaved clef keyAccidentals (sortByBeat notes) events.
Proof.
  intros HB0 HBg Hdisj Hplain Hall.
  pose proof (natQ_ceiling B) as HN.
  set (N := Z.to_nat (Qceiling B)) in *.
  pose proof (sortByBeat_after notes Hdisj) as Hsorted.
  assert (Hseq : inSequence B 1 (sortByBeat notes)).
  { apply sorted_inSequence; [exact Hsorted | lra |].
    intros n Hn. rewrite sortByBeat_perm in Hn. apply Hall. exact Hn. }
  assert (Hplain' : Forall plainDuration (sortByBeat notes)).
  { rewrite sortByBeat_perm. exact Hplain. }
  assert (H1g : onGrid 1) by apply onGrid_durations.
  destruct (measureLoop_spec clef keyAccidentals B N HN (sortByBeat notes)
              [] 1) as (events & c' & Hloop & Htot & Hg' & H1' & HB' & Hinter);
    [lra | exact H1g | exact Hseq | exact Hplain' |].
  assert (Hrg : onGrid (B - c' + 1)).
  { apply onGrid_plus; [apply onGrid_minus|]; assumption. }
  destruct (Qgtb (B - c' + 1) EPS) eqn:E.
  - apply Qgtb_lt in E.
    destruct (pushRests_fill ([] ++ events) (B - c' + 1) clef N) as
      (kw & kh & kq & ke & ks & Hrun & _ & _ & _ & Hgrid); [lra|].
    cbv zeta in *.
    exists (events ++ restRun clef kw kh kq ke ks).
    split; [|split; [|split; [|split]]].
    + intros fuel Hf. unfold restFuel in Hf. fold N in Hf.
      unfold buildMeasureNotes. rewrite Hloop by lia.
      cbn [mbind option_bind jsAdd jsSub jsGtNum pushRestsJs].
      apply Qgtb_lt in E. rewrite E.
      apply Hrun. lia.
    + rewrite totalBeats_app, Htot, Hgrid; [ring | unfold EPS in *; lra |].
      exact Hrg.
    + apply sortByBeat_perm.
    + exact Hsorted.
    + apply Hinter, restRun_synth.
  - exists events.
    split; [|split; [|split; [|split]]].
    + intros fuel Hf. unfold restFuel in Hf. fold N in Hf.
      unfold buildMeasureNotes. rewrite Hloop by lia.
      cbn [mbind option_bind jsAdd jsSub jsGtNum pushRestsJs].
      rewrite E. reflexivity.
    + apply Qgtb_le in E.
      assert (Hz : B - c' + 1 == 0).
      { apply onGrid_zero; [exact Hrg | |]; unfold EPS in *; lra. }
      rewrite Htot. lra.
    + apply sortByBeat_perm.
    + exact Hsorted.
    + rewrite <- (app_nil_r events). apply Hinter. constructor.
Qed.

Lemma buildMeasureNotes_fills_witness :
  let half := violinNote "n" 1 "half" in
  exists events : list StaveNote,
    buildMeasureNotes (restFuel 4) [half] "treble" D_major 4 = Some events
    /\ totalBeats events == 4
    /\ events = [noteEvent "treble" D_major half; restNote "treble" "h"].
Proof.
  cbv zeta.
  destruct (buildMeasureNotes_fills [violinNote "n" 1 "half"] "treble"
              D_major 4) as (events & Hrun & Htot & _).
  - discriminate.
  - apply onGrid_durations.
  - repeat constructor.
  - repeat constructor. unfold plainDuration. vm_compute.
    intros H. repeat (apply elem_of_cons in H as [H|H]; [discriminate H|]).
    inversion H.
  - intros n Hn. apply list_elem_of_singleton in Hn. subst n.
    split; [discriminate|]. split; [apply onGrid_durations|].
    vm_compute. discriminate.
  - exists events. specialize (Hrun (restFuel 4) (le_n _)).
    split; [exact Hrun|]. split; [exact Htot|].
    vm_compute in Hrun. injection Hrun as <-. vm_compute. reflexivity.
Defined.

(** * Further properties of the same modules *)

(** ** Key signatures *)

Lemma mark_first_lookup (n : Z) (names : list string) (acc : string)
    (result : gmap string string) (l a : string) :
  mark_first n names acc result !! l = Some a ->
  (l ∈ names /\ a = acc) \/ result !! l = Some a.
Proof.
  unfold mark_first.
  assert (G : forall (pre : list string) (m : gmap string string),
             foldl (fun m l => <[l := acc]> m) m pre !! l = Some a ->
             (l ∈ pre /\ a = acc) \/ m !! l = Some a).
  { induction pre as [|x pre IH]; intros m H; simpl in H; [auto|].
    apply IH in H as [[Hin ->]|H].
    - left. split; [right; exact Hin | reflexivity].
    - apply lookup_insert_Some in H as [[<- <-]|[_ H]].
      + left. split; [left | reflexivity].
      + right. exact H. }
  intros H. apply G in H as [[Hin ->]|H]; [left|right; exact H].
  split; [|reflexivity].
  apply elem_of_take in Hin as (i & Hi & _).
  eapply list_elem_of_lookup_2. exact Hi.
Qed.

Lemma getKeyAccidentals_entries (key l a : string) :
  getKeyAccidentals key !! l = Some a ->
  let n := default 0%Z (KEY_FIFTHS !! key) in
  ((0 < n)%Z /\ l ∈ sharps /\ a = "#"%string)
  \/ ((n < 0)%Z /\ l ∈ flats /\ a = "b"%string).
Proof.
  unfold getKeyAccidentals. cbv zeta.
  set (n := default 0%Z (KEY_FIFTHS !! key)).
  destruct (Z.ltb_spec 0 n) as [Hp|Hp];
    destruct (Z.ltb_spec n 0) as [Hn|Hn]; try lia.
  - intros H. apply mark_first_lookup in H as [[Hin ->]|H]; [|done].
    left. auto.
  - intros H. apply mark_first_lookup in H as [[Hin ->]|H]; [|done].
    right. auto.
  - intros H. rewrite lookup_empty in H. discriminate.
Qed.

(** X1. Whatever the key name, the derived key signature holds only the
    letters A to G, marks all of them with the same sign (sharps only, or
    flats only), and is empty for a name that is not one of the fifteen
    keys. *)
Theorem getKeyAccidentals_uniform (key : string) :
  (forall l a, getKeyAccidentals key !! l = Some a ->
      l ∈ DIATONIC /\ (a = "#"%string \/ a = "b"%string))
  /\ (forall l1 a1 l2 a2,
       getKeyAccidentals key !! l1 = Some a1 ->
       getKeyAccidentals key !! l2 = Some a2 -> a1 = a2)
  /\ (KEY_FIFTHS !! key = None -> getKeyAccidentals key = ∅).
Proof.
  split; [|split].
  - intros l a H.
    assert (Hsub : forall x, x ∈ sharps \/ x ∈ flats -> x ∈ DIATONIC).
    { intros x Hx. unfold sharps, flats, DIATONIC in *.
      rewrite !elem_of_cons in *. tauto. }
    apply getKeyAccidentals_entries in H as [(_ & Hl & ->)|(_ & Hl & ->)];
      auto.
  - intros l1 a1 l2 a2 H1 H2.
    apply getKeyAccidentals_entries in H1 as [(P1 & _ & ->)|(P1 & _ & ->)];
      apply getKeyAccidentals_entries in H2 as [(P2 & _ & ->)|(P2 & _ & ->)];
      (reflexivity || lia).
  - intros H. unfold getKeyAccidentals. rewrite H. reflexivity.
Qed.

Lemma getKeyAccidentals_sharpsAndFlats (key : string) :
  sharpsAndFlats (getKeyAccidentals key).
Proof. intros l a H. apply (getKeyAccidentals_uniform key) in H. tauto. Qed.

(** ** The pitch under the pointer *)

Lemma pretty_N_char_not_acc (x : N) : is_acc_char (pretty_N_char x) = false.
Proof. unfold pretty_N_char. repeat case_match; reflexivity. Qed.

Lemma pretty_N_go_head (x : N) (s : string) :
  headNotAcc s -> headNotAcc (pretty_N_go x s).
Proof.
  revert s. induction (N.lt_wf_0 x) as [x _ IH]; intros s Hs.
  destruct (N.eq_dec x 0%N) as [->|Hx].
  - rewrite pretty_N_go_0. exact Hs.
  - rewrite pretty_N_go_step by lia. apply IH.
    + apply N.div_lt; lia.
    + simpl. apply pretty_N_char_not_acc.
Qed.

Lemma pretty_Z_head (z : Z) : headNotAcc (pretty z).
Proof.
  destruct z as [|p|p]; unfold pretty, pretty_Z; simpl; try reflexivity.
  unfold pretty, pretty_positive, pretty, pretty_N.
  destruct (decide (N.pos p = 0%N)); [reflexivity|].
  apply pretty_N_go_head. exact I.
Qed.

Lemma indexStr_letter (i : Z) :
  (0 <= i < 7)%Z ->
  exists c, indexStr DIATONIC i = str1 c /\ is_note_letter c = true.
Proof.
  intros H.
  assert (C : (i = 0 \/ i = 1 \/ i = 2 \/ i = 3 \/ i = 4 \/ i = 5
               \/ i = 6)%Z) by lia.
  destruct C as [->|[->|[->|[->|[->|[->| ->]]]]]];
    eexists; split; reflexivity.
Qed.

(** The shape of every result of [linePosToPitch]. *)
Lemma linePosToPitch_shape (linePos : Q) (clef : string)
    (keyAccidentals : gmap string string) :
  exists (c : ascii) (oct : Z),
    is_note_letter c = true
    /\ linePosToPitch linePos clef keyAccidentals
       = String c (keyAccOf keyAccidentals (str1 c) ++ pretty oct).
Proof.
  unfold linePosToPitch.
  set (absPos := (cb_noteIdx (clefBase clef) + cb_octave (clefBase clef) * 7
                  - Math_round (linePos * 2))%Z).
  pose proof (Z.rem_bound_abs absPos 7 ltac:(lia)) as Hb.
  destruct (Z.ltb_spec (Z.rem absPos 7) 0) as [Hneg|Hpos].
  - destruct (indexStr_letter (Z.rem absPos 7 + 7)) as (c & -> & Hc); [lia|].
    exists c, (absPos / 7 - 1)%Z. split; [exact Hc | reflexivity].
  - destruct (indexStr_letter (Z.rem absPos 7)) as (c & -> & Hc); [lia|].
    exists c, (absPos / 7)%Z. split; [exact Hc | reflexivity].
Qed.

Lemma keyAccOf_cases (keyAccidentals : gmap string string) (l : string) :
  sharpsAndFlats keyAccidentals ->
  keyAccOf keyAccidentals l = EmptyString
  \/ keyAccOf keyAccidentals l = "#"%string
  \/ keyAccOf keyAccidentals l = "b"%string.
Proof.
  intros H. unfold keyAccOf.
  destruct (keyAccidentals !! l) as [a|] eqn:E; simpl; [|auto].
  destruct (H l a E) as [-> | ->]; auto.
Qed.

(** X2. The pitch the editor derives from the pointer position already
    carries the accidental of the key signature, so it is drawn without
    any accidental sign: for every staff position, clef and key name,
    [displayAccidental] of [linePosToPitch] is [null]. *)
Theorem ghost_pitch_shows_no_accidental (linePos : Q) (clef key : string) :
  displayAccidental
    (linePosToPitch linePos clef (getKeyAccidentals key))
    (getKeyAccidentals key) = None.
Proof.
  set (K := getKeyAccidentals key).
  destruct (linePosToPitch_shape linePos clef K) as (c & oct & Hc & ->).
  unfold displayAccidental.
  change (pitchLetter (String c _)) with (str1 c).
  assert (Hacc : pitchAccidental
                   (String c (keyAccOf K (str1 c) ++ pretty oct))
                 = keyAccOf K (str1 c)).
  { unfold pitchAccidental. rewrite Hc.
    destruct (keyAccOf_cases K (str1 c)
                (getKeyAccidentals_sharpsAndFlats key)) as [E|[E|E]];
      rewrite E; [|reflexivity..].
    pose proof (pretty_Z_head oct) as Hh.
    change (EmptyString +:+ pretty oct) with (pretty oct).
    destruct (pretty oct) as [|a rest]; [reflexivity|].
    unfold headNotAcc in Hh. rewrite Hh. reflexivity. }
  rewrite Hacc, String.eqb_refl. reflexivity.
Qed.


(** ** Editor: measure navigation and undo *)

Lemma navigate_step (ed : Editor) (key : NavKey) :
  let total := score_total_measures (ed_score ed) in
  (1 <= ed_measure ed <= total)%Z ->
  (1 <= ed_measure (navigate ed key) <= total)%Z
  /\ ed_score (navigate ed key) = ed_score ed
  /\ ed_notes (navigate ed key) = ed_notes ed.
Proof.
  cbv zeta. intros H. destruct key; simpl.
  - unfold prevMeasure. destruct (Z.ltb_spec 1 (ed_measure ed)); simpl;
      repeat split; lia.
  - unfold nextMeasure.
    destruct (Z.ltb_spec (ed_measure ed)
                (score_total_measures (ed_score ed))); simpl;
      repeat split; lia.
Qed.

(** X4. Whatever sequence of previous/next presses the open editor
    receives, its measure stays between 1 and the score's measure count
    and its note list is untouched; a press at either end changes
    nothing. *)
Theorem navigation_stays_in_score (ed : Editor) (keys : list NavKey) :
  let total := score_total_measures (ed_score ed) in
  (1 <= ed_measure ed <= total)%Z ->
  (1 <= ed_measure (foldl navigate ed keys) <= total)%Z
  /\ ed_notes (foldl navigate ed keys) = ed_notes ed
  /\ (ed_measure ed = 1%Z -> prevMeasure ed = ed)
  /\ (ed_measure ed = total -> nextMeasure ed = ed).
Proof.
  cbv zeta. intros H. split; [|split; [|split]].
  - revert ed H. induction keys as [|k keys IH]; intros ed H; simpl; [lia|].
    destruct (navigate_step ed k H) as (H1 & Hs & _).
    specialize (IH (navigate ed k)). rewrite Hs in IH. apply IH. exact H1.
  - revert ed H. induction keys as [|k keys IH]; intros ed H; simpl;
      [reflexivity|].
    destruct (navigate_step ed k H) as (H1 & Hs & Hn).
    rewrite <- Hn. apply IH. rewrite Hs. exact H1.
  - intros E. unfold prevMeasure. rewrite E. reflexivity.
  - intros E. unfold nextMeasure. rewrite E, Z.ltb_irrefl. reflexivity.
Qed.

Lemma navigation_stays_in_score_witness :
  let ed := editorOn "quarter" [] in
  (1 <= ed_measure (foldl navigate ed [ArrowLeft; ArrowRight; ArrowRight])
   <= 32)%Z.
Proof.
  cbv zeta.
  apply (navigation_stays_in_score (editorOn "quarter" [])
           [ArrowLeft; ArrowRight; ArrowRight]).
  simpl. lia.
Defined.

Lemma popLast_snoc (l : list Note) (n : Note) : popLast (l ++ [n]) = Some (l, n).
Proof.
  induction l as [|m l IH]; simpl; [reflexivity|]. rewrite IH. reflexivity.
Qed.

Lemma removeFirstId_snoc (l : list Note) (n : Note) :
  note_id n ∉ note_id <$> l ->
  removeFirstId (note_id n) (l ++ [n]) = l.
Proof.
  induction l as [|m l IH]; simpl; intros H.
  - rewrite String.eqb_refl. reflexivity.
  - apply not_elem_of_cons in H as [Hne H].
    destruct (String.eqb_spec (note_id m) (note_id n)); [congruence|].
    rewrite IH by exact H. reflexivity.
Qed.

(** X5. Undo takes back the last placement.  If a placement appended the
    note [saved], whose id no other local note has, then [undo] asks the
    store to delete exactly that id under the editor's session and, when
    the store agrees, the editor is back in the state before the
    placement; when the store refuses, nothing is lost: the note stays
    listed and stays on the undo stack. *)
Theorem undo_reverts_placement (srv : Server) (ed : Editor)
    (pitch : string) (beat : Q) (saved : Note) :
  let placed := out_state (placeNote srv ed pitch beat) in
  ed_notes placed = ed_notes ed ++ [saved] ->
  note_id saved ∉ note_id <$> ed_notes ed ->
  out_calls (undo srv placed)
  = [ApiDeleteNote (note_id saved) (ed_sessionId ed)]
  /\ (srv_deleteNote srv (note_id saved) (ed_sessionId ed) = true ->
      out_state (undo srv placed) = ed)
  /\ (srv_deleteNote srv (note_id saved) (ed_sessionId ed) = false ->
      out_state (undo srv placed) = placed).
Proof.
  cbv zeta. intros Hnotes Hfresh.
  assert (Hst : out_state (placeNote srv ed pitch beat)
                = edWith ed (ed_measure ed) (ed_placedNotes ed ++ [saved])
                    (ed_notes ed ++ [saved])).
  { unfold placeNote in *.
    destruct (jsGtNum _ _ || jsGtNum _ _).
    - simpl in Hnotes. apply (f_equal length) in Hnotes.
      rewrite length_app in Hnotes. simpl in Hnotes. lia.
    - destruct (srv_addNote srv _) as [s|]; simpl in Hnotes.
      + apply app_inj_tail in Hnotes as [_ ->]. reflexivity.
      + apply (f_equal length) in Hnotes.
        rewrite length_app in Hnotes. simpl in Hnotes. lia. }
  rewrite Hst. unfold undo. simpl. rewrite popLast_snoc.
  destruct (srv_deleteNote srv (note_id saved) (ed_sessionId ed)); simpl.
  - split; [reflexivity|]. split; [|discriminate]. intros _.
    unfold edWith. simpl. rewrite removeFirstId_snoc by exact Hfresh.
    destruct ed; reflexivity.
  - split; [reflexivity|]. split; [discriminate|]. intros _. reflexivity.
Qed.

Lemma undo_reverts_placement_witness :
  let ed := editorOn "quarter" [violinNote "n0" 1 "half"] in
  out_state (undo acceptAll (out_state (placeNote acceptAll ed "A4" 3))) = ed.
Proof.
  cbv zeta.
  refine (proj1 (proj2 (undo_reverts_placement acceptAll
            (editorOn "quarter" [violinNote "n0" 1 "half"]) "A4" 3
            (mkNote "new" "violin1" "A4" 1 3 "quarter" false None "mf"
               (Some "s1"%string)) _ _)) _).
  - vm_compute. reflexivity.
  - simpl. intros H. apply list_elem_of_singleton in H. discriminate H.
  - reflexivity.
Defined.

Lemma notesIn_snoc (inst : string) (m : Z) (l : list Note) (n : Note) :
  notesIn inst m (l ++ [n])
  = if decide (note_instrument_id n = inst /\ note_measure n = m)
    then notesIn inst m l ++ [n] else notesIn inst m l.
Proof.
  unfold notesIn. rewrite filter_app. rewrite filter_cons, filter_nil.
  destruct (decide _); [reflexivity | apply app_nil_r].
Qed.

Lemma beatCountSum_snoc (l : list Note) (n : Note) :
  beatCountSum (l ++ [n]) == beatCountSum l + beatCount (note_duration n).
Proof. induction l as [|m l IH]; simpl; [ring|]. rewrite IH. ring. Qed.

Lemma beatsInMeasure_snoc (inst : string) (m : Z) (l : list Note) (n : Note) :
  inMeasure inst m n ->
  beatsInMeasure inst m (l ++ [n])
  == beatsInMeasure inst m l + beatCount (note_duration n).
Proof.
  intros Hn. rewrite <- !beatCountSum_notesIn, notesIn_snoc.
  destruct (decide _) as [_|Hno]; [|contradiction].
  apply beatCountSum_snoc.
Qed.

(** X6. Placement keeps a measure within capacity.  Take a store that
    answers a create request with the row it inserted, an instrument and
    measure whose notes all have one of the five durations, and one of the
    five selected in the toolbar.  If the beat-counts of those notes sum to
    no more than the time signature before [_placeNote], they still do
    afterwards, and the notes still all have one of the five durations. *)
Theorem placeNote_keeps_capacity (srv : Server) (ed : Editor)
    (pitch : string) (beat : Q) :
  let inst := ed_instrumentId ed in
  let m := ed_measure ed in
  let placed := out_state (placeNote srv ed pitch beat) in
  echoes srv ->
  knownInMeasure inst m (ed_notes ed) ->
  ed_selectedDuration ed ∈ DURATION_NAMES ->
  beatsInMeasure inst m (ed_notes ed) <= score_beatsNum (ed_score ed) ->
  beatsInMeasure inst m (ed_notes placed) <= score_beatsNum (ed_score ed)
  /\ knownInMeasure inst m (ed_notes placed).
Proof.
  cbv zeta. intros Hecho Hknown Hsel Hcap. unfold placeNote.
  destruct (usedBeatsOf_known _ (knownInMeasure_notesIn _ _ _ Hknown))
    as (u & -> & Hu).
  rewrite beatCountSum_notesIn in Hu.
  rewrite (beatsOr_known 1 _ Hsel). cbn [jsAdd jsSub jsGtNum].
  destruct (Qgtb (u + _) _) eqn:G1; [split; assumption|].
  destruct (Qgtb (_ + _ - 1) _) eqn:G2; [split; assumption|].
  cbn [orb].
  destruct (srv_addNote srv _) as [saved|] eqn:Hsrv; [|split; assumption].
  cbn [out_state ed_notes].
  apply Hecho in Hsrv as (Hi & Hm & _ & Hd).
  cbn [nd_instrument_id nd_measure nd_duration] in Hi, Hm, Hd.
  split.
  - rewrite beatsInMeasure_snoc by (split; assumption).
    rewrite Hd. apply Qgtb_le in G1. lra.
  - intros n Hn Hnm. apply elem_of_app in Hn as [Hn|Hn].
    + exact (Hknown n Hn Hnm).
    + apply list_elem_of_singleton in Hn. subst n. rewrite Hd. exact Hsel.
Qed.

Lemma placeNote_keeps_capacity_witness :
  let ed := editorOn "half" [violinNote "n0" 1 "half"] in
  beatsInMeasure "violin1" 1
    (ed_notes (out_state (placeNote acceptAll ed "A4" 3)))
  <= 4.
Proof.
  cbv zeta.
  apply (placeNote_keeps_capacity acceptAll
           (editorOn "half" [violinNote "n0" 1 "half"]) "A4" 3).
  - intros nd saved [= <-]. simpl. auto.
  - intros n Hn _. apply list_elem_of_singleton in Hn. subst n.
    unfold DURATION_NAMES. cbn [note_duration violinNote].
    rewrite !elem_of_cons. tauto.
  - unfold DURATION_NAMES. cbn [ed_selectedDuration editorOn].
    rewrite !elem_of_cons. tauto.
  - vm_compute. discriminate.
Defined.

(** ** Editor: pointer geometry *)

Lemma Math_round_inject_Z (k : Z) : Math_round (inject_Z k) = k.
Proof.
  unfold Math_round.
  pose proof (Qfloor_le (inject_Z k + (1 # 2))) as Hlo.
  pose proof (Qlt_floor (inject_Z k + (1 # 2))) as Hhi.
  set (f := Qfloor (inject_Z k + (1 # 2))) in *.
  rewrite inject_Z_plus in Hhi. change (inject_Z 1) with 1 in Hhi.
  remember (inject_Z k) as qk eqn:Ek. remember (inject_Z f) as qf eqn:Ef.
  assert (H1 : qf < qk + 1) by lra.
  assert (H2 : qk < qf + 1) by lra.
  subst qk qf. change 1 with (inject_Z 1) in H1, H2.
  rewrite <- inject_Z_plus in H1, H2. rewrite <- Zlt_Qlt in H1, H2. lia.
Qed.

Lemma Qmax_lower (a b : Q) : a <= Qmax a b.
Proof.
  unfold Qmax. destruct (Qle_bool a b) eqn:E; [|lra].
  apply Qle_bool_iff in E. exact E.
Qed.

Lemma Qmax_least (a b c : Q) : a <= c -> b <= c -> Qmax a b <= c.
Proof. unfold Qmax. destruct (Qle_bool a b); auto. Qed.

Lemma Qmin_upper (a b : Q) : Qmin a b <= b.
Proof.
  unfold Qmin. destruct (Qle_bool a b) eqn:E; [|lra].
  apply Qle_bool_iff in E. exact E.
Qed.

Lemma subdivisions_ge_1 (B d : Q) : 0 < d -> d <= B -> 0 <= B / d - 1.
Proof.
  intros Hd Hle.
  assert (E : B / d - 1 == (B - d) * / d) by (field; lra).
  rewrite E. apply Qmult_le_0_compat; [lra|].
  apply Qinv_le_0_compat. lra.
Qed.

(** X7. A beat read off the pointer fits the measure.  When the selected
    duration is no longer than the measure, [_xToBeat] returns for every
    pointer position a beat of at least 1 at which a note of that
    duration ends inside the measure; so [_placeNote] can then refuse it
    only for lack of capacity. *)
Theorem xToBeat_fits (stave : Stave) (score : Score)
    (selectedDuration : string) (x : Q) :
  let d := durBeatsOr 1 selectedDuration in
  let beat := xToBeat (Some stave) score selectedDuration x in
  noteStartX stave < noteEndX stave ->
  d <= score_beatsNum score ->
  1 <= beat
  /\ beat + d - 1 <= score_beatsNum score
  /\ forall (srv : Server) (ed : Editor) (pitch : string),
       ed_score ed = score -> ed_selectedDuration ed = selectedDuration ->
       out_flash (placeNote srv ed pitch beat) = true ->
       exists usedBeats,
         usedBeatsOf (notesIn (ed_instrumentId ed) (ed_measure ed)
                        (ed_notes ed)) = Num usedBeats
         /\ score_beatsNum score < usedBeats + d.
Proof.
  cbv zeta. intros _ Hle.
  pose proof (durBeatsOr_pos selectedDuration) as Hd.
  set (d := durBeatsOr 1 selectedDuration) in *.
  set (B := score_beatsNum score) in *.
  unfold xToBeat. fold d. fold B.
  set (g := inject_Z (Math_round _)).
  set (c := Qmax 0 (Qmin g (B / d - 1))).
  assert (Hc0 : 0 <= c) by apply Qmax_lower.
  assert (Hc1 : c <= B / d - 1).
  { apply Qmax_least; [apply subdivisions_ge_1; assumption|].
    apply Qmin_upper. }
  assert (Hcd : c * d <= B - d).
  { assert (E : B - d == (B / d - 1) * d) by (field; lra).
    rewrite E. apply Qmult_le_compat_r; [exact Hc1 | lra]. }
  assert (Hpos : 0 <= c * d) by (apply Qmult_le_0_compat; lra).
  split; [lra|]. split; [lra|].
  intros srv ed pitch Hs Hsel Hflash. unfold placeNote in Hflash.
  rewrite Hs, Hsel in Hflash. fold B in Hflash.
  destruct (beatsOr_cases 1 selectedDuration) as [E|E];
    rewrite E in Hflash; fold d in Hflash.
  - destruct (usedBeatsOf _) as [u| | |] eqn:Eu;
      cbn [jsAdd jsSub jsGtNum] in Hflash.
    + destruct (Qgtb (u + d) B) eqn:G1.
      * apply Qgtb_lt in G1. exists u. split; [reflexivity | exact G1].
      * assert (G2 : Qgtb (1 + c * d + d - 1) B = false)
          by (apply Qgtb_le; lra).
        rewrite G2 in Hflash. cbn [orb] in Hflash.
        destruct (srv_addNote srv _); discriminate Hflash.
    + assert (G2 : Qgtb (1 + c * d + d - 1) B = false)
        by (apply Qgtb_le; lra).
      rewrite G2 in Hflash. cbn [orb] in Hflash.
      destruct (srv_addNote srv _); discriminate Hflash.
    + assert (G2 : Qgtb (1 + c * d + d - 1) B = false)
        by (apply Qgtb_le; lra).
      rewrite G2 in Hflash. cbn [orb] in Hflash.
      destruct (srv_addNote srv _); discriminate Hflash.
    + assert (G2 : Qgtb (1 + c * d + d - 1) B = false)
        by (apply Qgtb_le; lra).
      rewrite G2 in Hflash. cbn [orb] in Hflash.
      destruct (srv_addNote srv _); discriminate Hflash.
  - destruct (usedBeatsOf _) as [u| | |];
      cbn [jsAdd jsSub jsGtNum orb] in Hflash;
      destruct (srv_addNote srv _); discriminate Hflash.
Qed.

Lemma xToBeat_fits_witness :
  let stave := mkStave 100 500 40 80 in
  1 <= xToBeat (Some stave) seededScore "half" 470
  /\ xToBeat (Some stave) seededScore "half" 470 + 2 - 1 <= 4.
Proof.
  cbv zeta.
  destruct (xToBeat_fits (mkStave 100 500 40 80) seededScore "half" 470)
    as (H1 & H2 & _).
  - reflexivity.
  - vm_compute. discriminate.
  - split; [exact H1 | exact H2].
Defined.

(** X8. Snapping and reading back agree on the beat grid.  For the [k]-th
    slot of the selected duration's grid (slots 0 to
    [beatsNum / durBeats - 1]), the x coordinate [_snapX] gives its beat is
    read back by [_xToBeat] as that same beat. *)
Theorem xToBeat_snapX (stave : Stave) (score : Score)
    (selectedDuration : string) (k : Z) :
  let d := durBeatsOr 1 selectedDuration in
  let beat := 1 + inject_Z k * d in
  noteStartX stave < noteEndX stave ->
  0 < score_beatsNum score ->
  (0 <= k)%Z ->
  inject_Z k <= score_beatsNum score / d - 1 ->
  xToBeat (Some stave) score selectedDuration (snapX (Some stave) score beat)
  == beat.
Proof.
  cbv zeta. intros Hw HB Hk Hslot.
  pose proof (durBeatsOr_pos selectedDuration) as Hd.
  set (d := durBeatsOr 1 selectedDuration) in *.
  set (B := score_beatsNum score) in *.
  unfold xToBeat, snapX. fold d. fold B.
  set (s := noteStartX stave) in *. set (e := noteEndX stave) in *.
  assert (E : (s + (1 + inject_Z k * d - 1) / B * (e - s) - s) / (e - s)
              * (B / d) == inject_Z k) by (field; repeat split; lra).
  assert (R : Math_round ((s + (1 + inject_Z k * d - 1) / B * (e - s) - s)
                          / (e - s) * (B / d)) = k).
  { unfold Math_round. rewrite E. apply Math_round_inject_Z. }
  rewrite R. unfold Qmax, Qmin.
  assert (H1 : Qle_bool (inject_Z k) (B / d - 1) = true)
    by (apply Qle_bool_iff; exact Hslot).
  rewrite H1.
  assert (H2 : Qle_bool 0 (inject_Z k) = true).
  { apply Qle_bool_iff. change 0 with (inject_Z 0). rewrite <- Zle_Qle. lia. }
  rewrite H2. reflexivity.
Qed.

Lemma xToBeat_snapX_witness :
  let stave := mkStave 100 500 40 80 in
  xToBeat (Some stave) seededScore "eighth"
    (snapX (Some stave) seededScore (1 + inject_Z 5 * durBeatsOr 1 "eighth"))
  == 1 + inject_Z 5 * durBeatsOr 1 "eighth".
Proof.
  cbv zeta.
  apply (xToBeat_snapX (mkStave 100 500 40 80) seededScore "eighth" 5).
  - reflexivity.
  - reflexivity.
  - lia.
  - vm_compute. discriminate.
Defined.

(** X9. Reading a snapped height back doubles the line position.  [_snapY]
    puts line position 4 on the bottom staff line, but [_yToLinePos]
    counts half line spacings: for every position that is a multiple of a
    quarter, [_yToLinePos (_snapY linePos)] is twice [linePos], so the
    bottom staff line reads as position 8. *)
Theorem yToLinePos_snapY_doubles (stave : Stave) (k : Z) :
  yLine0 stave < yLine4 stave ->
  let linePos := inject_Z k * (1 # 4) in
  yToLinePos (Some stave) (snapY (Some stave) linePos) == 2 * linePos
  /\ snapY (Some stave) 4 == yLine4 stave
  /\ yToLinePos (Some stave) (yLine4 stave) == 8.
Proof.
  intros H. cbv zeta. unfold yToLinePos, snapY.
  set (t := yLine0 stave) in *. set (b := yLine4 stave) in *.
  assert (E1 : (t + inject_Z k * (1 # 4) * ((b - t) / 8) * 2 - t)
               / ((b - t) / 4 / 2) * 2 == inject_Z k) by (field; lra).
  assert (E2 : (b - t) / ((b - t) / 4 / 2) * 2 == inject_Z 16)
    by (change (inject_Z 16) with 16; field; lra).
  split; [|split].
  - unfold Math_round. rewrite E1.
    change (Qfloor (inject_Z k + (1 # 2))) with (Math_round (inject_Z k)).
    rewrite Math_round_inject_Z. field.
  - field.
  - unfold Math_round. rewrite E2.
    change (Qfloor (inject_Z 16 + (1 # 2))) with (Math_round (inject_Z 16)).
    rewrite Math_round_inject_Z. reflexivity.
Qed.

Lemma yToLinePos_snapY_doubles_witness :
  let stave := mkStave 100 500 40 80 in
  yToLinePos (Some stave) (snapY (Some stave) (inject_Z 6 * (1 # 4)))
  == 2 * (inject_Z 6 * (1 # 4)).
Proof.
  cbv zeta.
  apply (yToLinePos_snapY_doubles (mkStave 100 500 40 80) 6). reflexivity.
Defined.

(** ** Beginner view *)

Lemma nearerPitch_Some (y topY ls : Q) (b : string) (d : Q) (p : string) :
  nearerPitch y topY ls (b, Some d) p
  = if Qle_bool d (Qabs (pitchToY p topY ls - y)) then (b, Some d)
    else (p, Some (Qabs (pitchToY p topY ls - y))).
Proof. reflexivity. Qed.

Lemma nearest_fold (y topY ls : Q) (l : list string) (b : string) (d : Q) :
  d = Qabs (pitchToY b topY ls - y) ->
  exists b' d',
    foldl (nearerPitch y topY ls) (b, Some d) l = (b', Some d')
    /\ d' = Qabs (pitchToY b' topY ls - y)
    /\ (b' = b \/ b' ∈ l)
    /\ d' <= d
    /\ forall q, q ∈ l -> d' <= Qabs (pitchToY q topY ls - y).
Proof.
  revert b d. induction l as [|p l IH]; intros b d Hd; cbn [foldl].
  - exists b, d. split; [reflexivity|]. split; [exact Hd|].
    split; [left; reflexivity|]. split; [lra|].
    intros q Hq. inversion Hq.
  - rewrite nearerPitch_Some.
    destruct (Qle_bool d (Qabs (pitchToY p topY ls - y))) eqn:E.
    + apply Qle_bool_iff in E.
      destruct (IH b d Hd) as (b' & d' & Hf & Hd' & Hin & Hle & Hall).
      exists b', d'. split; [exact Hf|]. split; [exact Hd'|].
      split; [destruct Hin; [left|right; right]; assumption|].
      split; [exact Hle|]. intros q Hq.
      apply elem_of_cons in Hq as [->|Hq]; [lra | auto].
    + assert (Hlt : Qabs (pitchToY p topY ls - y) < d).
      { apply Qnot_le_lt. rewrite <- Qle_bool_iff. congruence. }
      destruct (IH p _ eq_refl) as (b' & d' & Hf & Hd' & Hin & Hle & Hall).
      exists b', d'. split; [exact Hf|]. split; [exact Hd'|].
      split; [right; destruct Hin as [->|Hin]; [left|right; exact Hin]|].
      split; [lra|]. intros q Hq.
      apply elem_of_cons in Hq as [->|Hq]; [exact Hle | auto].
Qed.

Lemma yToPitch_nearest (y topY ls : Q) :
  yToPitch y topY ls ∈ BEGINNER_PITCHES
  /\ forall q, q ∈ BEGINNER_PITCHES ->
       Qabs (pitchToY (yToPitch y topY ls) topY ls - y)
       <= Qabs (pitchToY q topY ls - y).
Proof.
  unfold yToPitch.
  change (foldl (nearerPitch y topY ls) ("C5"%string, None) BEGINNER_PITCHES)
    with (foldl (nearerPitch y topY ls)
            ("C5"%string, Some (Qabs (pitchToY "C5" topY ls - y)))
            ["B4"; "A4"; "G4"; "F4"; "E4"; "D4"; "C4"]%string).
  destruct (nearest_fold y topY ls
              ["B4"; "A4"; "G4"; "F4"; "E4"; "D4"; "C4"]%string
              "C5"%string _ eq_refl) as (b' & d' & Hf & Hd' & Hin & Hle & Hall).
  rewrite Hf. cbn [fst]. unfold BEGINNER_PITCHES. split.
  - destruct Hin as [->|Hin]; [left | right; exact Hin].
  - intros q Hq. apply elem_of_cons in Hq as [->|Hq].
    + rewrite <- Hd'. exact Hle.
    + rewrite <- Hd'. auto.
Qed.

Lemma beginner_pos_inj (p q : string) :
  p ∈ BEGINNER_PITCHES -> q ∈ BEGINNER_PITCHES ->
  default 1 (BEGINNER_POS !! p) == default 1 (BEGINNER_POS !! q) -> p = q.
Proof.
  unfold BEGINNER_PITCHES. rewrite !elem_of_cons, !elem_of_nil.
  intros [->|[->|[->|[->|[->|[->|[->|[->|[]]]]]]]]]
         [->|[->|[->|[->|[->|[->|[->|[->|[]]]]]]]]] H;
    try reflexivity; vm_compute in H; discriminate H.
Qed.

(** X10. The beginner staff maps heights to pitches and back.  [yToPitch]
    always answers with one of the eight beginner pitches, and with one
    whose height is nearest to the pointer; for a non-zero line spacing,
    the height [pitchToY] gives a beginner pitch is read back as that
    pitch. *)
Theorem yToPitch_pitchToY (topY lineSpacing : Q) :
  (forall y, yToPitch y topY lineSpacing ∈ BEGINNER_PITCHES
     /\ forall q, q ∈ BEGINNER_PITCHES ->
          Qabs (pitchToY (yToPitch y topY lineSpacing) topY lineSpacing - y)
          <= Qabs (pitchToY q topY lineSpacing - y))
  /\ (~ lineSpacing == 0 ->
      forall p, p ∈ BEGINNER_PITCHES ->
        yToPitch (pitchToY p topY lineSpacing) topY lineSpacing = p).
Proof.
  split; [intros y; apply yToPitch_nearest|].
  intros Hls p Hp.
  destruct (yToPitch_nearest (pitchToY p topY lineSpacing) topY lineSpacing)
    as [Hin Hmin].
  specialize (Hmin p Hp).
  set (r := yToPitch (pitchToY p topY lineSpacing) topY lineSpacing) in *.
  assert (Hz : pitchToY r topY lineSpacing - pitchToY p topY lineSpacing == 0).
  { assert (E0 : pitchToY p topY lineSpacing - pitchToY p topY lineSpacing
                 == 0) by ring.
    rewrite E0 in Hmin. change (Qabs 0) with 0 in Hmin.
    apply Qabs_Qle_condition in Hmin. lra. }
  apply beginner_pos_inj; [exact Hin | exact Hp |].
  unfold pitchToY in Hz.
  set (a := default 1 (BEGINNER_POS !! r)) in *.
  set (b := default 1 (BEGINNER_POS !! p)) in *.
  assert (Hm : (a - b) * lineSpacing == 0) by lra.
  apply Qmult_integral in Hm as [Hm|Hm]; [lra | contradiction].
Qed.

Lemma yToPitch_pitchToY_witness :
  yToPitch (pitchToY "E4" 40 16) 40 16 = "E4"%string.
Proof.
  apply (proj2 (yToPitch_pitchToY 40 16)).
  - discriminate.
  - unfold BEGINNER_PITCHES. rewrite !elem_of_cons. tauto.
Defined.

(** X11. Durations and widths of blocks agree.  [_beatsToDuration] always
    answers with one of the five durations; it maps the beat-count of each
    duration back to that duration, so a drag that ends where it started
    keeps the note's duration; and a longer width never gives a shorter
    duration. *)
Theorem beatsToDuration_roundtrip :
  (forall beats, is_Some (DUR_TO_BEATS !! beatsToDuration beats))
  /\ (forall d q, DUR_TO_BEATS !! d = Some q -> beatsToDuration q = d)
  /\ (forall d, is_Some (DUR_TO_BEATS !! d) -> dragDuration d 0 = d)
  /\ (forall b1 b2, b1 <= b2 ->
        durBeatsOr 1 (beatsToDuration b1) <= durBeatsOr 1 (beatsToDuration b2)).
Proof.
  assert (R : forall d q, DUR_TO_BEATS !! d = Some q -> beatsToDuration q = d).
  { intros d q H.
    destruct (duration_cases d) as [[->|[->|[->|[->| ->]]]]|(_ & E & _)];
      [..|congruence]; vm_compute in H; injection H as <-; reflexivity. }
  split; [|split; [exact R|split]].
  - intros beats. unfold beatsToDuration.
    repeat (destruct (Qgeb _ _)); eexists; reflexivity.
  - intros d [q Hq]. unfold dragDuration, beatsOr. rewrite Hq.
    destruct (DUR_TO_BEATS_values d q Hq) as [->|[->|[->|[->| ->]]]];
      destruct (duration_cases d) as [[->|[->|[->|[->| ->]]]]|(_ & E & _)];
      try congruence; try reflexivity; vm_compute in Hq; discriminate Hq.
  - intros b1 b2 Hle. unfold beatsToDuration.
    destruct (Qgeb b1 3) eqn:A1; destruct (Qgeb b2 3) eqn:A2;
    destruct (Qgeb b1 (3 # 2)) eqn:B1; destruct (Qgeb b2 (3 # 2)) eqn:B2;
    destruct (Qgeb b1 (3 # 4)) eqn:C1; destruct (Qgeb b2 (3 # 4)) eqn:C2;
    destruct (Qgeb b1 (3 # 8)) eqn:D1; destruct (Qgeb b2 (3 # 8)) eqn:D2;
      try (vm_compute; discriminate);
      rewrite ?Qgeb_le, ?Qgeb_lt in *; lra.
Qed.

(** X12. The beginner view only ever creates quarter notes on whole beats
    of the measure.  With a time signature of [b >= 1] beats, every create
    request a click sends is for a pitched quarter note in the current
    instrument and measure, under the view's session, on a whole beat
    between 1 and [b] on which no note of the instrument and measure
    starts; and where those notes all have one of the five durations, only
    while a further beat still fits beside the sum of their beat-counts. *)
Theorem onClick_creates_quarter_on_beat (srv : Server) (bg : Beginner)
    (hit : option string) (col : Z) (pitch : string) (b : Z)
    (noteData : NoteData) :
  let inst := bg_currentInstrument bg in
  let m := bg_currentMeasure bg in
  score_beatsNum (bg_score bg) == inject_Z b -> (1 <= b)%Z ->
  ApiAddNote noteData ∈ out_calls (onClick srv bg hit col pitch) ->
  nd_duration noteData = "quarter"%string
  /\ nd_is_rest noteData = false
  /\ nd_instrument_id noteData = bg_currentInstrument bg
  /\ nd_measure noteData = bg_currentMeasure bg
  /\ nd_session_id noteData = bg_sessionId bg
  /\ (exists k : Z, (1 <= k <= b)%Z /\ nd_beat noteData == inject_Z k)
  /\ (forall n, n ∈ bg_notes bg -> inMeasure inst m n ->
        1 # 100 <= Qabs (note_beat n - nd_beat noteData))
  /\ (knownInMeasure inst m (bg_notes bg) ->
      beatsInMeasure inst m (bg_notes bg) + beatCount "quarter"
      <= score_beatsNum (bg_score bg)).
Proof.
  cbv zeta. intros HB Hb. unfold onClick.
  destruct (bg_dragging bg); [intros H; inversion H|].
  destruct hit as [noteId|].
  { unfold bgDeleteNote. destruct (List.find _ _); simpl; intros H.
    - apply list_elem_of_singleton in H. discriminate H.
    - inversion H. }
  unfold getPos. destruct (bg_hasLayout bg); [|intros H; inversion H].
  destruct (jsGtNum _ _) eqn:G; [intros H; inversion H|].
  set (beat := Qmax 1 (Qmin (score_beatsNum (bg_score bg)) (inject_Z col + 1))).
  destruct (findAtBeat _ _) eqn:F; [intros H; inversion H|].
  assert (Hbeat : exists k : Z, (1 <= k <= b)%Z /\ beat == inject_Z k).
  { unfold beat, Qmax, Qmin.
    destruct (Qle_bool (score_beatsNum (bg_score bg)) (inject_Z col + 1))
      eqn:E1.
    - destruct (Qle_bool 1 (score_beatsNum (bg_score bg))) eqn:E2.
      + exists b. split; [lia | exact HB].
      + exists 1%Z. split; [lia | reflexivity].
    - assert (Hlt : inject_Z col + 1 < score_beatsNum (bg_score bg)).
      { apply Qnot_le_lt. rewrite <- Qle_bool_iff. congruence. }
      destruct (Qle_bool 1 (inject_Z col + 1)) eqn:E2.
      + apply Qle_bool_iff in E2. exists (col + 1)%Z.
        rewrite HB in Hlt.
        change 1 with (inject_Z 1) in E2, Hlt.
        rewrite <- inject_Z_plus in E2, Hlt.
        rewrite <- Zle_Qle in E2. rewrite <- Zlt_Qlt in Hlt.
        split; [lia|]. rewrite inject_Z_plus. reflexivity.
      + exists 1%Z. split; [lia | reflexivity]. }
  intros H.
  assert (Hnd : noteData
                = {| nd_instrument_id := bg_currentInstrument bg;
                     nd_pitch := pitch;
                     nd_measure := bg_currentMeasure bg;
                     nd_beat := beat;
                     nd_duration := "quarter";
                     nd_is_rest := false;
                     nd_accidental := None;
                     nd_dynamic := "mf";
                     nd_session_id := bg_sessionId bg |}).
  { destruct (srv_addNote srv _); simpl in H;
      apply list_elem_of_singleton in H; congruence. }
  subst noteData. cbn [nd_duration nd_is_rest nd_instrument_id nd_measure
    nd_session_id nd_beat].
  repeat (split; [reflexivity|]).
  split; [exact Hbeat|]. split.
  - intros n Hn Hnm. unfold findAtBeat in F.
    assert (Hin : n ∈ notesIn (bg_currentInstrument bg)
                        (bg_currentMeasure bg) (bg_notes bg))
      by (apply notesIn_spec; auto).
    apply list_elem_of_In in Hin.
    pose proof (find_none _ _ F n Hin) as Hf. unfold sameBeat in Hf.
    apply negb_false_iff, Qle_bool_iff in Hf. exact Hf.
  - intros Hknown. apply knownInMeasure_notesIn in Hknown.
    destruct (usedBeatsOf_known _ Hknown) as (u & Eu & Hu).
    rewrite beatCountSum_notesIn in Hu.
    rewrite Eu in G. cbn [jsAdd jsGtNum] in G. apply Qgtb_le in G.
    change (beatCount "quarter") with 1. rewrite <- Hu. exact G.
Qed.

Lemma onClick_creates_quarter_on_beat_witness :
  let held := [violinNote "n0" 1 "half"] in
  let noteData := mkNoteData "violin1" "A4" 1 (inject_Z 2 + 1) "quarter"
                    false None "mf" "s1" in
  ApiAddNote noteData
  ∈ out_calls (onClick acceptAll (beginnerOn held) None 2 "A4")
  /\ (exists k : Z, (1 <= k <= 4)%Z /\ nd_beat noteData == inject_Z k)
  /\ beatsInMeasure "violin1" 1 held + beatCount "quarter" <= 4.
Proof.
  cbv zeta.
  assert (Hin : ApiAddNote (mkNoteData "violin1" "A4" 1 (inject_Z 2 + 1)
                              "quarter" false None "mf" "s1")
                ∈ out_calls (onClick acceptAll
                               (beginnerOn [violinNote "n0" 1 "half"])
                               None 2 "A4")).
  { vm_compute. left. }
  split; [exact Hin|].
  destruct (onClick_creates_quarter_on_beat acceptAll
              (beginnerOn [violinNote "n0" 1 "half"]) None 2
              "A4" 4 _ eq_refl ltac:(lia) Hin) as
    (_ & _ & _ & _ & _ & Hk & _ & Hcap).
  split; [exact Hk|]. apply Hcap.
  intros n Hn _. apply list_elem_of_singleton in Hn. subst n.
  unfold DURATION_NAMES. cbn [note_duration violinNote].
  rewrite !elem_of_cons. tauto.
Defined.

(** ** Deleting somebody else's note *)

Lemma removeFirstId_subset (noteId : string) (l : list Note) (x : string) :
  x ∈ note_id <$> removeFirstId noteId l -> x ∈ note_id <$> l.
Proof.
  induction l as [|n l IH]; simpl; [auto|].
  destruct (String.eqb (note_id n) noteId); simpl.
  - intros H. right. exact H.
  - intros H. apply elem_of_cons in H as [->|H]; [left | right; auto].
Qed.

Lemma removeFirstId_gone (noteId : string) (l : list Note) :
  NoDup (note_id <$> l) -> noteId ∉ note_id <$> removeFirstId noteId l.
Proof.
  induction l as [|n l IH]; simpl; intros Hnd.
  - apply not_elem_of_nil.
  - apply NoDup_cons in Hnd as [Hn Hnd].
    destruct (String.eqb_spec (note_id n) noteId) as [<-|Hne]; [exact Hn|].
    simpl. apply not_elem_of_cons. split; [congruence | auto].
Qed.

(** X13. A click on a note of another session makes client and store
    disagree.  The editor (and likewise the beginner view) sends the delete
    under its own session id; the store, for a row that session does not
    own, answers 404 and keeps the row; the client drops the note from its
    list all the same. *)
Theorem foreign_delete_diverges (ed : Editor) (bg : Beginner) (note : Note)
    (table : gmap string Note) (row : Note) :
  table !! note_id note = Some row ->
  ~ ownedBy row (Some (ed_sessionId ed)) ->
  ~ ownedBy row (Some (bg_sessionId bg)) ->
  (out_calls (deleteExistingNote ed note)
   = [ApiDeleteNote (note_id note) (ed_sessionId ed)]
   /\ deleteRoute table (note_id note) (Some (ed_sessionId ed))
      = (table, StatusError 404 "Note not found or not owned by this session")
   /\ (NoDup (note_id <$> ed_notes ed) ->
       note_id note
       ∉ note_id <$> ed_notes (out_state (deleteExistingNote ed note))))
  /\ (note ∈ bg_notes bg ->
      out_calls (bgDeleteNote bg (note_id note))
      = [ApiDeleteNote (note_id note) (bg_sessionId bg)]
      /\ deleteRoute table (note_id note) (Some (bg_sessionId bg))
         = (table,
            StatusError 404 "Note not found or not owned by this session")
      /\ (NoDup (note_id <$> bg_notes bg) ->
          note_id note
          ∉ note_id <$> bg_notes (out_state (bgDeleteNote bg (note_id note))))).
Proof.
  intros Hrow He Hb.
  assert (Hroute : forall s, ~ ownedBy row (Some s) ->
            deleteRoute table (note_id note) (Some s)
            = (table,
               StatusError 404 "Note not found or not owned by this session")).
  { intros s Hs. unfold deleteRoute, sqlDeleteNote. rewrite Hrow.
    destruct (sqlEq (note_session_id row) (Some s)) eqn:E; [|reflexivity].
    apply sqlEq_owned in E. contradiction. }
  split.
  - split; [reflexivity|]. split; [apply Hroute; exact He|].
    intros Hnd. simpl. apply removeFirstId_gone. exact Hnd.
  - intros Hin. unfold bgDeleteNote.
    destruct (List.find _ (bg_notes bg)) as [m|] eqn:F.
    + split; [reflexivity|]. split; [apply Hroute; exact Hb|].
      intros Hnd. simpl. apply removeFirstId_gone. exact Hnd.
    + exfalso. apply list_elem_of_In in Hin.
      pose proof (find_none _ _ F note Hin) as Hf. simpl in Hf.
      rewrite String.eqb_refl in Hf. discriminate Hf.
Qed.

Lemma foreign_delete_diverges_witness :
  let theirs := violinNote "n0" 1 "half" in
  deleteRoute {[ "n0"%string := theirs ]} "n0" (Some "s1"%string)
  = ({[ "n0"%string := theirs ]},
     StatusError 404 "Note not found or not owned by this session")
  /\ ed_notes (out_state (deleteExistingNote (editorOn "quarter" [theirs])
                            theirs)) = [].
Proof.
  cbv zeta.
  destruct (foreign_delete_diverges
              (editorOn "quarter" [violinNote "n0" 1 "half"])
              (beginnerOn [violinNote "n0" 1 "half"])
              (violinNote "n0" 1 "half")
              {[ "n0"%string := violinNote "n0" 1 "half" ]}
              (violinNote "n0" 1 "half")) as [(_ & Hr & _) _].
  - apply lookup_singleton_eq.
  - intros (sid & [= <-] & [=]).
  - intros (sid & [= <-] & [=]).
  - split; [exact Hr|]. vm_compute. reflexivity.
Defined.

(** ** The accidental buttons *)

Lemma lastChar_snoc (s : string) (c : ascii) : lastChar (s ++ str1 c) = Some c.
Proof.
  induction s as [|x s IH]; [reflexivity|].
  change (String x s ++ str1 c)%string with (String x (s ++ str1 c)).
  cbn [lastChar]. rewrite IH.
  destruct (s ++ str1 c)%string eqn:E; [|reflexivity].
  destruct s; discriminate E.
Qed.

(** X14. An accidental button rewrites the accidental and nothing else.
    For a well-formed pointer pitch and one of the three buttons, outside
    rest mode, the pitch [_placeNote] sends is the same letter and octave
    with the chosen sign (none for natural); it is again well formed and
    sits on the same staff position.  With no button active, or in rest
    mode, the pitch is sent as it is. *)
Theorem finalPitch_overrides_accidental (ed : Editor) (l : ascii)
    (acc : string) (o : ascii) :
  is_note_letter l = true ->
  acc = EmptyString \/ acc = "#"%string \/ acc = "b"%string ->
  is_digit o = true ->
  let pitch := String l (acc ++ str1 o) in
  (ed_restMode ed = false ->
     (ed_selectedAccidental ed = Some "sharp"%string ->
        finalPitchOf ed pitch = String l ("#" ++ str1 o))
     /\ (ed_selectedAccidental ed = Some "flat"%string ->
        finalPitchOf ed pitch = String l ("b" ++ str1 o))
     /\ (ed_selectedAccidental ed = Some "natural"%string ->
        finalPitchOf ed pitch = String l (str1 o)))
  /\ (ed_selectedAccidental ed = None \/ ed_restMode ed = true ->
      finalPitchOf ed pitch = pitch)
  /\ ((ed_selectedAccidental ed = None
       \/ ed_selectedAccidental ed = Some "sharp"%string
       \/ ed_selectedAccidental ed = Some "flat"%string
       \/ ed_selectedAccidental ed = Some "natural"%string) ->
      PitchPattern (finalPitchOf ed pitch)
      /\ pitchToVexKey (finalPitchOf ed pitch) = pitchToVexKey pitch).
Proof.
  intros Hl Hacc Ho. cbv zeta.
  assert (Hlast : lastStr (String l (acc ++ str1 o)) = str1 o).
  { unfold lastStr.
    change (String l (acc ++ str1 o)) with (String l acc ++ str1 o)%string.
    rewrite lastChar_snoc. reflexivity. }
  assert (Hs : ed_restMode ed = false ->
            (ed_selectedAccidental ed = Some "sharp"%string ->
               finalPitchOf ed (String l (acc ++ str1 o))
               = String l ("#" ++ str1 o))
            /\ (ed_selectedAccidental ed = Some "flat"%string ->
               finalPitchOf ed (String l (acc ++ str1 o))
               = String l ("b" ++ str1 o))
            /\ (ed_selectedAccidental ed = Some "natural"%string ->
               finalPitchOf ed (String l (acc ++ str1 o))
               = String l (str1 o))).
  { intros Hr. unfold finalPitchOf. rewrite Hr, Hlast.
    repeat split; intros ->; reflexivity. }
  assert (Hn : ed_selectedAccidental ed = None \/ ed_restMode ed = true ->
            finalPitchOf ed (String l (acc ++ str1 o))
            = String l (acc ++ str1 o)).
  { intros [E|E]; unfold finalPitchOf; rewrite E; [reflexivity|].
    rewrite andb_false_r. reflexivity. }
  split; [exact Hs|]. split; [exact Hn|].
  assert (Hkey : forall a, a = EmptyString \/ a = "#"%string \/ a = "b"%string ->
            PitchPattern (String l (a ++ str1 o))
            /\ pitchToVexKey (String l (a ++ str1 o))
               = String (toLowerCase l) (String "/" (str1 o))).
  { intros a Ha. split; [exists l, a, o; auto|].
    unfold pitchToVexKey.
    destruct Ha as [->|[->| ->]]; simpl; rewrite Hl, Ho; reflexivity. }
  intros Hsel.
  destruct (ed_restMode ed) eqn:Hr.
  { rewrite Hn by auto. destruct (Hkey acc Hacc). split; [assumption|].
    reflexivity. }
  destruct (Hs eq_refl) as (H1 & H2 & H3).
  destruct (Hkey acc Hacc) as [_ Kp].
  destruct Hsel as [E|[E|[E|E]]].
  - rewrite Hn by auto. destruct (Hkey acc Hacc). split; [assumption|].
    reflexivity.
  - rewrite (H1 E), Kp. apply (Hkey "#"%string). auto.
  - rewrite (H2 E), Kp. apply (Hkey "b"%string). auto.
  - rewrite (H3 E), Kp. apply (Hkey EmptyString). auto.
Qed.

Lemma finalPitch_overrides_accidental_witness :
  let ed := mkEditor "s1" "violin1" 1 "quarter" (Some "sharp"%string) false
              "mf" [] seededScore [] in
  finalPitchOf ed "Bb4" = "B#4"%string.
Proof.
  cbv zeta.
  apply (finalPitch_overrides_accidental
           (mkEditor "s1" "violin1" 1 "quarter" (Some "sharp"%string) false
              "mf" [] seededScore [])
           "B" "b" "4" eq_refl (or_intror (or_intror eq_refl)) eq_refl);
    reflexivity.
Defined.

(** ** Playback: mute and solo *)

(** X15. Mute and solo decide what is heard.  After muting an instrument
    none of its notes is scheduled, and a second toggle gives the engine
    back; the solo toggle sets the solo instrument and a second toggle
    clears it; while a (non-empty) solo instrument is set, every scheduled
    note is that instrument's. *)
Theorem mute_and_solo_filter (eng : Engine) (score : Score)
    (notes : list Note) (fromMeasure : Z) (instrumentId : string) :
  (instrumentId ∉ mutedInstruments eng ->
   (forall s, s ∈ (play (toggleMute eng instrumentId) score notes
                     fromMeasure).1 ->
      sch_instrument s <> instrumentId)
   /\ toggleMute (toggleMute eng instrumentId) instrumentId = eng)
  /\ (soloInstrument eng <> Some instrumentId ->
      soloInstrument (toggleSolo eng instrumentId) = Some instrumentId
      /\ soloInstrument (toggleSolo (toggleSolo eng instrumentId)
                           instrumentId) = None)
  /\ (instrumentId <> EmptyString ->
      soloInstrument eng = Some instrumentId ->
      forall s, s ∈ (play eng score notes fromMeasure).1 ->
        sch_instrument s = instrumentId).
Proof.
  split; [|split].
  - intros Hnot. split.
    + intros s Hs. unfold play in Hs. cbn [fst] in Hs.
      apply list_elem_of_omap in Hs as (note & _ & Hp).
      apply playNote_Some in Hp as ((_ & _ & Ha & _) & Hi & _).
      rewrite Hi. intros E. unfold toggleMute in Ha.
      rewrite bool_decide_eq_false_2 in Ha by exact Hnot.
      cbn [mutedInstruments] in Ha.
      apply Ha. rewrite E, elem_of_union, elem_of_singleton. tauto.
    + unfold toggleMute at 2.
      rewrite bool_decide_eq_false_2 by exact Hnot.
      unfold toggleMute. simpl.
      rewrite bool_decide_eq_true_2
        by (rewrite elem_of_union, elem_of_singleton; tauto).
      destruct eng as [solo muted t]. simpl in *. f_equal.
      apply set_eq. intros x.
      rewrite elem_of_difference, elem_of_union, elem_of_singleton.
      split; [tauto|]. intros Hx. split; [tauto | congruence].
  - intros Hne.
    assert (E : toggleSolo eng instrumentId
                = mkEngine (Some instrumentId) (mutedInstruments eng)
                    (currentTime eng)).
    { unfold toggleSolo. rewrite bool_decide_eq_false_2 by exact Hne.
      reflexivity. }
    rewrite E. split; [reflexivity|]. unfold toggleSolo. simpl.
    rewrite bool_decide_eq_true_2 by reflexivity. reflexivity.
  - intros Hne Hsolo s Hs. unfold play in Hs. cbn [fst] in Hs.
    apply list_elem_of_omap in Hs as (note & _ & Hp).
    apply playNote_Some in Hp as ((_ & _ & _ & Ha) & Hi & _).
    rewrite Hi. apply (Ha instrumentId Hsolo Hne).
Qed.

Lemma mute_and_solo_filter_witness :
  toggleMute (toggleMute (mkEngine None ∅ 0) "viola") "viola"
  = mkEngine None ∅ 0.
Proof.
  apply (mute_and_solo_filter (mkEngine None ∅ 0) seededScore [] 1 "viola").
  apply not_elem_of_empty.
Defined.

(** ** Server: create, update, delete *)

(** X18. Creating and deleting on the store.  A create request for a
    measure outside the score is refused with status 400 and changes
    nothing.  One for a measure of the score, a known instrument and a
    fresh id stores exactly one new row, which carries the presented
    session id.  From then on the delete route under that session id
    restores the table as it was, under any other session id it is refused
    and changes nothing, and a row created without a session id can be
    deleted by nobody. *)
Theorem create_then_delete (instruments : gset string) (total_measures : Z)
    (notes : gmap string Note) (uuid : string) (body : PostBody) :
  let created := postRoute instruments total_measures notes uuid body in
  ((pb_measure body < 1 \/ total_measures < pb_measure body)%Z ->
   created = (notes, NoteError 400 "Measure out of range"))
  /\ ((1 <= pb_measure body <= total_measures)%Z ->
      pb_instrument_id body ∈ instruments ->
      notes !! uuid = None ->
      exists row,
        created = (<[uuid := row]> notes, NoteJson row)
        /\ note_id row = uuid
        /\ note_session_id row = pb_session_id body
        /\ (forall other, other <> uuid ->
              created.1 !! other = notes !! other)
        /\ (forall s, pb_session_id body = Some s ->
              deleteRoute created.1 uuid (Some s) = (notes, JsonSuccess))
        /\ (forall session_id, session_id <> pb_session_id body
                               \/ pb_session_id body = None ->
              deleteRoute created.1 uuid session_id
              = (created.1,
                 StatusError 404
                   "Note not found or not owned by this session"))).
Proof.
  cbv zeta. unfold postRoute. split.
  - intros H.
    destruct (Z.ltb_spec (pb_measure body) 1);
      destruct (Z.ltb_spec total_measures (pb_measure body));
      simpl; (reflexivity || lia).
  - intros Hm Hinst Hfresh.
    destruct (Z.ltb_spec (pb_measure body) 1); [lia|].
    destruct (Z.ltb_spec total_measures (pb_measure body)); [lia|]. simpl.
    rewrite bool_decide_eq_false_2
      by (rewrite Hfresh; intros [x Hx]; discriminate Hx).
    rewrite bool_decide_eq_true_2 by exact Hinst. simpl.
    eexists. split; [reflexivity|]. simpl.
    split; [reflexivity|]. split; [reflexivity|].
    split; [intros other Hne; apply lookup_insert_ne; congruence|].
    split.
    + intros s Hs. unfold deleteRoute, sqlDeleteNote.
      rewrite lookup_insert_eq. simpl. rewrite Hs. simpl.
      rewrite String.eqb_refl. simpl.
      rewrite delete_insert_id by exact Hfresh. reflexivity.
    + intros session_id Hs. unfold deleteRoute, sqlDeleteNote.
      rewrite lookup_insert_eq. simpl.
      destruct (sqlEq (pb_session_id body) session_id) eqn:E;
        [|reflexivity].
      exfalso. unfold sqlEq in E.
      destruct (pb_session_id body) as [x|], session_id as [y|];
        try discriminate E.
      apply String.eqb_eq in E. subst.
      destruct Hs as [Hs|Hs]; [apply Hs; reflexivity | discriminate Hs].
Qed.

Lemma create_then_delete_witness :
  let body := mkPostBody "viola" "C4" 3 1 "half" false None None
                (Some "s7"%string) in
  deleteRoute (postRoute {[ "viola"%string ]} 32 ∅ "id1" body).1 "id1"
    (Some "s7"%string)
  = (∅, JsonSuccess).
Proof.
  cbv zeta.
  destruct (create_then_delete {[ "viola"%string ]} 32 ∅ "id1"
              (mkPostBody "viola" "C4" 3 1 "half" false None None
                 (Some "s7"%string))) as [_ H].
  destruct H as (row & _ & _ & _ & _ & Hdel & _).
  - simpl. lia.
  - simpl. apply elem_of_singleton. reflexivity.
  - apply lookup_empty.
  - apply Hdel. reflexivity.
Defined.

(** X19. Updating needs no session and never changes ownership.  The
    update route, whoever asks, gives an existing row the pitch, beat and
    duration of the request, the accidental of the request or none when it
    is absent or empty, and the dynamic of the request or ["mf"] when it is
    absent or empty; it keeps the row's id, instrument, measure, rest flag
    and session id and every other row, and answers 404 for an unknown id
    leaving the table as it is; so the delete route answers every request
    after an update as it would have before. *)
Theorem update_keeps_ownership (notes : gmap string Note) (noteId : string)
    (body : PutBody) :
  let updated := putRoute notes noteId body in
  (notes !! noteId = None ->
   updated = (notes, NoteError 404 "Note not found"))
  /\ (forall row, notes !! noteId = Some row ->
      exists row',
        updated = (<[noteId := row']> notes, NoteJson row')
        /\ note_pitch row' = ub_pitch body
        /\ note_beat row' = ub_beat body
        /\ note_duration row' = ub_duration body
        /\ (forall a, ub_accidental body = Some a -> a <> EmptyString ->
              note_accidental row' = Some a)
        /\ (ub_accidental body = None \/ ub_accidental body = Some EmptyString ->
              note_accidental row' = None)
        /\ (forall d, ub_dynamic body = Some d -> d <> EmptyString ->
              note_dynamic row' = d)
        /\ (ub_dynamic body = None \/ ub_dynamic body = Some EmptyString ->
              note_dynamic row' = "mf"%string)
        /\ note_id row' = note_id row
        /\ note_instrument_id row' = note_instrument_id row
        /\ note_measure row' = note_measure row
        /\ note_is_rest row' = note_is_rest row
        /\ note_session_id row' = note_session_id row)
  /\ (forall other, other <> noteId -> updated.1 !! other = notes !! other)
  /\ (forall anyId session_id,
        (deleteRoute updated.1 anyId session_id).2
        = (deleteRoute notes anyId session_id).2).
Proof.
  cbv zeta. unfold putRoute.
  destruct (notes !! noteId) as [row|] eqn:Hrow.
  - split; [discriminate|]. split.
    + intros r [= <-]. eexists. split; [reflexivity|].
      cbn [note_pitch note_beat note_duration note_accidental note_dynamic
           note_id note_instrument_id note_measure note_is_rest
           note_session_id].
      split; [reflexivity|]. split; [reflexivity|]. split; [reflexivity|].
      split.
      { intros a -> Ha. unfold orNull, truthyStr.
        destruct (String.eqb_spec a EmptyString); [contradiction|].
        reflexivity. }
      split.
      { intros [-> | ->]; reflexivity. }
      split.
      { intros d -> Hd. unfold orMf.
        destruct (String.eqb_spec d EmptyString); [contradiction|].
        reflexivity. }
      split.
      { intros [-> | ->]; reflexivity. }
      repeat split; reflexivity.
    + split; [intros other Hne; apply lookup_insert_ne; congruence|].
      intros anyId session_id. cbn [fst]. unfold deleteRoute, sqlDeleteNote.
      destruct (decide (anyId = noteId)) as [->|Hne].
      * rewrite lookup_insert_eq, Hrow. cbn [note_session_id].
        destruct (sqlEq (note_session_id row) session_id); reflexivity.
      * rewrite lookup_insert_ne by congruence.
        destruct (notes !! anyId) as [r|]; [|reflexivity].
        destruct (sqlEq (note_session_id r) session_id); reflexivity.
  - split; [reflexivity|]. split; [discriminate|].
    split; reflexivity.
Qed.

(** ** Merging polled notes *)

Lemma mergeNotes_ids (notes newNotes : list Note) (x : string) :
  x ∈ note_id <$> mergeNotes notes newNotes
  <-> x ∈ note_id <$> notes \/ x ∈ note_id <$> newNotes.
Proof.
  unfold mergeNotes. rewrite fmap_app, elem_of_app, !list_elem_of_fmap.
  split.
  - intros [H|(n & -> & Hn)]; [left; exact H|].
    apply list_elem_of_filter in Hn as [_ Hn]. right. eauto.
  - intros [H|(n & -> & Hn)]; [left; exact H|].
    destruct (decide (note_id n ∈ note_id <$> notes)) as [Hin|Hout].
    + left. apply list_elem_of_fmap in Hin. exact Hin.
    + right. exists n. split; [reflexivity|].
      apply list_elem_of_filter. auto.
Qed.

Lemma filter_none (P : Note -> Prop) `{forall n, Decision (P n)}
    (l : list Note) :
  (forall n, n ∈ l -> ~ P n) -> filter P l = [].
Proof.
  induction l as [|n l IH]; intros Hall; [reflexivity|].
  rewrite filter_cons. destruct (decide (P n)) as [Hp|_].
  - exfalso. apply (Hall n); [left | exact Hp].
  - apply IH. intros m Hm. apply Hall. right. exact Hm.
Qed.

Lemma filter_ids_NoDup (P : Note -> Prop) `{forall n, Decision (P n)}
    (l : list Note) :
  NoDup (note_id <$> l) -> NoDup (note_id <$> filter P l).
Proof.
  induction l as [|n l IH]; intros Hnd; [constructor|].
  simpl in Hnd. apply NoDup_cons in Hnd as [Hn Hnd].
  rewrite filter_cons. destruct (decide (P n)); [|auto].
  simpl. apply NoDup_cons. split; [|auto].
  intros Hin. apply Hn. apply list_elem_of_fmap in Hin as (m & E & Hm).
  apply list_elem_of_filter in Hm as [_ Hm].
  apply list_elem_of_fmap. eauto.
Qed.

(** X20. Polled notes are merged by id, idempotently.  The merge keeps the
    local notes as they are and appends, in the order received, the polled
    notes whose id is not yet known; afterwards every polled id is present;
    delivering the same batch again adds nothing; and if neither the local
    list nor the batch repeats an id, the merged list does not either. *)
Theorem mergeNotes_idempotent (notes newNotes : list Note) :
  (exists added, mergeNotes notes newNotes = notes ++ added
                 /\ forall n, n ∈ added <->
                      n ∈ newNotes /\ note_id n ∉ note_id <$> notes)
  /\ (forall n, n ∈ newNotes ->
        note_id n ∈ note_id <$> mergeNotes notes newNotes)
  /\ mergeNotes (mergeNotes notes newNotes) newNotes
     = mergeNotes notes newNotes
  /\ (NoDup (note_id <$> notes) -> NoDup (note_id <$> newNotes) ->
      NoDup (note_id <$> mergeNotes notes newNotes)).
Proof.
  split; [|split; [|split]].
  - eexists. split; [reflexivity|]. intros n.
    rewrite list_elem_of_filter. tauto.
  - intros n Hn. apply mergeNotes_ids. right.
    apply list_elem_of_fmap. eauto.
  - unfold mergeNotes at 1.
    rewrite filter_none; [apply app_nil_r|].
    intros n Hn Hout. apply Hout, mergeNotes_ids. right.
    apply list_elem_of_fmap. eauto.
  - intros Hl Hb. unfold mergeNotes. rewrite fmap_app.
    apply NoDup_app. split; [exact Hl|]. split.
    + intros x Hx Hx'. apply list_elem_of_fmap in Hx' as (n & -> & Hn).
      apply list_elem_of_filter in Hn as [Hn _]. contradiction.
    + apply filter_ids_NoDup. exact Hb.
Qed.

Lemma mergeNotes_idempotent_witness :
  let a := violinNote "a" 1 "half" in
  let b := violinNote "b" 3 "half" in
  NoDup (note_id <$> mergeNotes [a] [a; b]).
Proof.
  cbv zeta.
  apply (mergeNotes_idempotent [violinNote "a" 1 "half"]
           [violinNote "a" 1 "half"; violinNote "b" 3 "half"]).
  - simpl. apply NoDup_singleton.
  - simpl. apply NoDup_cons. split; [|apply NoDup_singleton].
    intros H. apply list_elem_of_singleton in H. discriminate H.
Defined.

(** ** Frequencies *)

Lemma pitchSemitones_pattern (l : ascii) (acc : string) (o : ascii) :
  is_note_letter l = true ->
  acc = EmptyString \/ acc = "#"%string \/ acc = "b"%string ->
  is_digit o = true ->
  pitchSemitones (String l (acc ++ str1 o))
  = Some (default 0%Z (NOTE_SEMITONES !! str1 l) + (digitOf o - 4) * 12
          + accShift acc)%Z.
Proof.
  intros Hl Hacc Ho.
  assert (M : match_pitch (String l (acc ++ str1 o)) = Some (l, acc, o)).
  { destruct Hacc as [->|[->| ->]]; simpl; rewrite Hl, Ho; reflexivity. }
  unfold pitchSemitones. rewrite M. cbn [mbind option_bind].
  unfold parseIntChar. rewrite Ho. cbn [default]. unfold accShift, digitOf.
  destruct Hacc as [->|[->| ->]]; simpl (String.eqb _ _); cbv iota;
    unfold Datatypes.id; f_equal; lia.
Qed.

Lemma Rpower2_octave (s : Z) :
  Rpower 2 (IZR (s + 12) / 12) = (2 * Rpower 2 (IZR s / 12))%R.
Proof.
  rewrite plus_IZR.
  replace ((IZR s + 12) / 12)%R with (IZR s / 12 + 1)%R by field.
  rewrite Rpower_plus, Rpower_1 by exact Rlt_0_2. apply Rmult_comm.
Qed.

Lemma Rpower2_semitone (s : Z) :
  Rpower 2 (IZR (s + 1) / 12)
  = (Rpower 2 (1 / 12) * Rpower 2 (IZR s / 12))%R.
Proof.
  rewrite plus_IZR.
  replace ((IZR s + 1) / 12)%R with (1 / 12 + IZR s / 12)%R by field.
  apply Rpower_plus.
Qed.

(** X21. Frequencies follow equal temperament.  For a well-formed pitch,
    the next octave digit doubles the frequency whatever the accidental; a
    sharp multiplies the frequency of the bare letter by the twelfth root
    of two and a flat divides it by the same; every string, well formed or
    not, gets a positive frequency; and A4 is 440. *)
Theorem pitchToFreq_equal_temperament (l : ascii) (o o' : ascii) :
  is_note_letter l = true -> is_digit o = true -> is_digit o' = true ->
  digitOf o' = (digitOf o + 1)%Z ->
  (forall acc, acc = EmptyString \/ acc = "#"%string \/ acc = "b"%string ->
     pitchToFreq (String l (acc ++ str1 o'))
     = (2 * pitchToFreq (String l (acc ++ str1 o)))%R)
  /\ pitchToFreq (String l ("#" ++ str1 o))
     = (Rpower 2 (1 / 12) * pitchToFreq (String l (str1 o)))%R
  /\ pitchToFreq (String l (str1 o))
     = (Rpower 2 (1 / 12) * pitchToFreq (String l ("b" ++ str1 o)))%R
  /\ (forall pitch, 0 < pitchToFreq pitch)%R
  /\ pitchToFreq "A4" = 440%R.
Proof.
  intros Hl Ho Ho' Hnext.
  assert (Hn : forall a, a = EmptyString \/ a = "#"%string \/ a = "b"%string ->
            forall d, is_digit d = true ->
            pitchToFreq (String l (a ++ str1 d))
            = (440 * Rpower 2 (IZR (default 0%Z (NOTE_SEMITONES !! str1 l)
                                     + (digitOf d - 4) * 12 + accShift a)
                               / 12))%R).
  { intros a Ha d Hd. unfold pitchToFreq.
    rewrite (pitchSemitones_pattern l a d Hl Ha Hd). reflexivity. }
  split; [|split; [|split; [|split]]].
  - intros acc Hacc. rewrite (Hn acc Hacc o' Ho'), (Hn acc Hacc o Ho), Hnext.
    set (s := (default 0%Z (NOTE_SEMITONES !! str1 l) + (digitOf o - 4) * 12
               + accShift acc)%Z).
    replace (default 0%Z (NOTE_SEMITONES !! str1 l)
             + (digitOf o + 1 - 4) * 12 + accShift acc)%Z
      with (s + 12)%Z by (unfold s; lia).
    rewrite Rpower2_octave. ring.
  - rewrite (Hn "#"%string (or_intror (or_introl eq_refl)) o Ho).
    change (String l (str1 o)) with (String l (EmptyString ++ str1 o)).
    rewrite (Hn EmptyString (or_introl eq_refl) o Ho).
    change (accShift "#") with 1%Z. change (accShift EmptyString) with 0%Z.
    rewrite Z.add_0_r, Rpower2_semitone. ring.
  - rewrite (Hn "b"%string (or_intror (or_intror eq_refl)) o Ho).
    change (String l (str1 o)) with (String l (EmptyString ++ str1 o)).
    rewrite (Hn EmptyString (or_introl eq_refl) o Ho).
    change (accShift "b") with (-1)%Z. change (accShift EmptyString) with 0%Z.
    set (s := (default 0%Z (NOTE_SEMITONES !! str1 l) + (digitOf o - 4) * 12)%Z).
    replace (s + 0)%Z with (s + -1 + 1)%Z by lia.
    rewrite Rpower2_semitone. ring.
  - intros pitch. unfold pitchToFreq.
    destruct (pitchSemitones pitch) as [s|].
    + apply Rmult_lt_0_compat; [apply IZR_lt; lia | apply exp_pos].
    + apply IZR_lt. lia.
  - unfold pitchToFreq.
    replace (pitchSemitones "A4") with (Some 0%Z) by reflexivity.
    replace (IZR 0 / 12)%R with 0%R by field.
    rewrite Rpower_O by exact Rlt_0_2. ring.
Qed.

Lemma pitchToFreq_equal_temperament_witness :
  pitchToFreq "A5" = (2 * pitchToFreq "A4")%R.
Proof.
  destruct (pitchToFreq_equal_temperament "A" "4" "5" eq_refl eq_refl eq_refl
              eq_refl) as [H _].
  exact (H EmptyString (or_introl eq_refl)).
Defined.

(** ** Page layout and hit test *)

Lemma staveMap_elem (clientWidth : Q) (instruments : list Instrument)
    (totalMeasures : Z) (e : StaveBox) :
  e ∈ renderStaveMap clientWidth instruments totalMeasures
  <-> exists (sys : Z) (i : nat) (inst : Instrument) (m : Z),
        (0 <= sys < Qceiling (inject_Z totalMeasures
                              / inject_Z measuresPerSystem))%Z
        /\ instruments !! i = Some inst
        /\ (0 <= m < measCount totalMeasures sys)%Z
        /\ e = staveBox (Qmax clientWidth 800) (length instruments)
                 totalMeasures sys i inst m.
Proof.
  unfold renderStaveMap. cbv zeta. rewrite list_elem_of_bind. split.
  - intros (sys & He & Hsys). apply elem_of_seqZ in Hsys.
    apply list_elem_of_bind in He as (i & He & Hi).
    destruct (instruments !! i) as [inst|] eqn:Hinst; [|inversion He].
    apply list_elem_of_bind in He as (m & He & Hm).
    apply elem_of_seqZ in Hm. apply list_elem_of_singleton in He.
    exists sys, i, inst, m. repeat split; auto; lia.
  - intros (sys & i & inst & m & Hsys & Hinst & Hm & ->).
    exists sys. split; [|apply elem_of_seqZ; lia].
    apply list_elem_of_bind. exists i. split.
    + rewrite Hinst. apply list_elem_of_bind. exists m.
      split; [left | apply elem_of_seqZ; lia].
    + apply elem_of_seq. apply lookup_lt_Some in Hinst. lia.
Qed.

Lemma find_unique (P : StaveBox -> bool) (l : list StaveBox) (e : StaveBox) :
  e ∈ l -> P e = true -> (forall e', e' ∈ l -> P e' = true -> e' = e) ->
  List.find P l = Some e.
Proof.
  intros Hin HP Huniq. destruct (List.find P l) as [x|] eqn:F.
  - apply find_some in F as [Hx HPx]. f_equal. apply Huniq; [|exact HPx].
    apply list_elem_of_In. exact Hx.
  - apply list_elem_of_In in Hin. rewrite (find_none _ _ F e Hin) in HP.
    discriminate HP.
Qed.

Lemma Qmax_upper (a b : Q) : b <= Qmax a b.
Proof.
  unfold Qmax. destruct (Qle_bool a b) eqn:E; [lra|].
  assert (b < a); [|lra].
  apply Qnot_le_lt. rewrite <- Qle_bool_iff. congruence.
Qed.

Lemma inject_Z_succ_le (a b : Z) : (a < b)%Z -> inject_Z a + 1 <= inject_Z b.
Proof.
  intros H. change 1 with (inject_Z 1). rewrite <- inject_Z_plus.
  rewrite <- Zle_Qle. lia.
Qed.

(** Two entries whose boxes share a point strictly inside the first have
    the same place in the three loops. *)
Lemma boxes_apart (W : Q) (n : nat) (total : Z)
    (sys sys0 : Z) (i i0 : nat) (m m0 : Z) (x y : Q) :
  let H := natQ n * staveSpacing in
  let Y s k := inject_Z s * (H + systemGap) + 20 + natQ k * staveSpacing in
  let w s := W / inject_Z (measCount total s) in
  let X s k := leftMargin + inject_Z k * w s in
  0 < W ->
  (0 <= sys)%Z -> (0 <= sys0)%Z -> (i < n)%nat -> (i0 < n)%nat ->
  (0 <= m < measCount total sys)%Z -> (0 <= m0 < measCount total sys0)%Z ->
  X sys0 m0 < x -> x < X sys0 m0 + w sys0 ->
  Y sys0 i0 < y -> y < Y sys0 i0 + staveSpacing ->
  X sys m <= x -> x <= X sys m + w sys ->
  Y sys i <= y -> y <= Y sys i + staveSpacing ->
  sys = sys0 /\ i = i0 /\ m = m0.
Proof.
  cbv zeta. unfold staveSpacing, systemGap, leftMargin.
  intros HW Hs Hs0 Hi Hi0 Hm Hm0 Hx1 Hx2 Hy1 Hy2 Gx1 Gx2 Gy1 Gy2.
  set (H := natQ n * 75) in *.
  assert (HH : 0 <= H).
  { unfold H. apply Qmult_le_0_compat; [apply natQ_nonneg | lra]. }
  assert (Hin : forall k : nat, (k < n)%nat -> natQ k * 75 + 75 <= H).
  { intros k Hk. unfold H, natQ.
    assert (inject_Z (Z.of_nat k) + 1 <= inject_Z (Z.of_nat n))
      by (apply inject_Z_succ_le; lia).
    lra. }
  assert (Hi' := Hin i Hi). assert (Hi0' := Hin i0 Hi0).
  pose proof (natQ_nonneg i) as Ni. pose proof (natQ_nonneg i0) as Ni0.
  assert (Esys : sys = sys0).
  { destruct (Z.lt_trichotomy sys sys0) as [L|[E|L]]; [|exact E|]; exfalso.
    - assert (A : (inject_Z sys + 1) * (H + 35) <= inject_Z sys0 * (H + 35)).
      { apply Qmult_le_compat_r; [apply inject_Z_succ_le; exact L | lra]. }
      lra.
    - assert (A : (inject_Z sys0 + 1) * (H + 35) <= inject_Z sys * (H + 35)).
      { apply Qmult_le_compat_r; [apply inject_Z_succ_le; exact L | lra]. }
      lra. }
  subst sys0. split; [reflexivity|].
  assert (Ei : i = i0).
  { destruct (Nat.lt_trichotomy i i0) as [L|[E|L]]; [|exact E|]; exfalso.
    - assert (natQ i + 1 <= natQ i0) by (apply inject_Z_succ_le; lia). lra.
    - assert (natQ i0 + 1 <= natQ i) by (apply inject_Z_succ_le; lia). lra. }
  split; [exact Ei|].
  set (w := W / inject_Z (measCount total sys)) in *.
  assert (Hw : 0 < w).
  { unfold w. apply Qlt_shift_div_l; [|lra].
    change 0 with (inject_Z 0). rewrite <- Zlt_Qlt. lia. }
  destruct (Z.lt_trichotomy m m0) as [L|[E|L]]; [|exact E|]; exfalso.
  - assert (A : (inject_Z m + 1) * w <= inject_Z m0 * w).
    { apply Qmult_le_compat_r; [apply inject_Z_succ_le; exact L | lra]. }
    lra.
  - assert (A : (inject_Z m0 + 1) * w <= inject_Z m * w).
    { apply Qmult_le_compat_r; [apply inject_Z_succ_le; exact L | lra]. }
    lra.
Qed.

(** X22. Every measure of every instrument has its own stave on the page,
    and a click inside it is attributed to it.  For a score of
    [totalMeasures] measures, the stave map holds for the [i]-th instrument
    and each measure from 1 to [totalMeasures] an entry naming that
    instrument and measure, in system [(measure - 1) / 4]; and [hitTest] at
    any point strictly inside that entry's rectangle returns that entry. *)
Theorem hitTest_finds_stave (clientWidth : Q) (instruments : list Instrument)
    (totalMeasures : Z) (i : nat) (inst : Instrument) (measure : Z)
    (x y : Q) :
  instruments !! i = Some inst ->
  (1 <= measure <= totalMeasures)%Z ->
  let staveMap := renderStaveMap clientWidth instruments totalMeasures in
  let e := staveBox (Qmax clientWidth 800) (length instruments) totalMeasures
             ((measure - 1) / 4) i inst ((measure - 1) mod 4) in
  e ∈ staveMap
  /\ sb_measure e = measure
  /\ sb_instrumentId e = inst_id inst
  /\ sb_clef e = inst_clef inst
  /\ (sb_x e < x -> x < sb_x e + sb_width e ->
      sb_y e < y -> y < sb_y e + sb_height e ->
      hitTest staveMap x y = Some e).
Proof.
  intros Hinst HM. cbv zeta.
  set (sys0 := ((measure - 1) / 4)%Z). set (m0 := ((measure - 1) mod 4)%Z).
  assert (Hdm : (measure - 1 = 4 * sys0 + m0 /\ 0 <= m0 < 4)%Z).
  { unfold sys0, m0. split; [apply Z.div_mod; lia|].
    apply Z.mod_pos_bound. lia. }
  assert (Hsys0 : (0 <= sys0)%Z) by (unfold sys0; apply Z.div_pos; lia).
  assert (Hm0 : (0 <= m0 < measCount totalMeasures sys0)%Z).
  { unfold measCount, measuresPerSystem. lia. }
  assert (Hnum : (sys0 < Qceiling (inject_Z totalMeasures
                                   / inject_Z measuresPerSystem))%Z).
  { pose proof (Qle_ceiling (inject_Z totalMeasures
                             / inject_Z measuresPerSystem)) as Hc.
    set (q := inject_Z totalMeasures / inject_Z measuresPerSystem) in *.
    assert (Eq : 4 * q == inject_Z totalMeasures).
    { unfold q, measuresPerSystem. change (inject_Z 4) with 4. field. }
    assert (Hlt : inject_Z (4 * sys0) < inject_Z totalMeasures)
      by (rewrite <- Zlt_Qlt; lia).
    rewrite inject_Z_mult in Hlt. change (inject_Z 4) with 4 in Hlt.
    assert (Hs : inject_Z sys0 < inject_Z (Qceiling q)) by lra.
    rewrite <- Zlt_Qlt in Hs. exact Hs. }
  set (e := staveBox (Qmax clientWidth 800) (length instruments)
              totalMeasures sys0 i inst m0).
  assert (He : e ∈ renderStaveMap clientWidth instruments totalMeasures).
  { apply staveMap_elem. exists sys0, i, inst, m0.
    repeat split; auto; lia. }
  split; [exact He|].
  split; [unfold e, staveBox, measuresPerSystem; simpl; lia|].
  split; [reflexivity|]. split; [reflexivity|].
  intros Hx1 Hx2 Hy1 Hy2.
  assert (HW : 0 < Qmax clientWidth 800 - leftMargin - 20).
  { pose proof (Qmax_upper clientWidth 800). unfold leftMargin. lra. }
  assert (Hi : (i < length instruments)%nat)
    by (apply lookup_lt_Some in Hinst; exact Hinst).
  unfold hitTest. apply find_unique; [exact He | |].
  - unfold inBox. rewrite !andb_true_iff. unfold Qgeb.
    rewrite !Qle_bool_iff. repeat split; lra.
  - intros e' He' Hbox.
    apply staveMap_elem in He' as (sys & i' & inst' & m & Hs & Hi' & Hm & ->).
    unfold inBox in Hbox. rewrite !andb_true_iff in Hbox. unfold Qgeb in Hbox.
    rewrite !Qle_bool_iff in Hbox.
    destruct Hbox as [[[Gx1 Gx2] Gy1] Gy2].
    destruct (boxes_apart (Qmax clientWidth 800 - leftMargin - 20)
                (length instruments) totalMeasures sys sys0 i' i m m0 x y)
      as (-> & -> & ->); auto; try lia.
    + apply lookup_lt_Some in Hi'. exact Hi'.
    + rewrite Hinst in Hi'. injection Hi' as <-. reflexivity.
Qed.

Lemma hitTest_finds_stave_witness :
  let quintet := [mkInstrument "violin1" "Violin I" "Vln. I" "treble";
                  mkInstrument "viola" "Viola" "Vla." "alto"] in
  exists e, hitTest (renderStaveMap 1000 quintet 32) 300 110 = Some e
            /\ sb_instrumentId e = "viola"%string /\ sb_measure e = 2%Z.
Proof.
  cbv zeta.
  destruct (hitTest_finds_stave 1000
              [mkInstrument "violin1" "Violin I" "Vln. I" "treble";
               mkInstrument "viola" "Viola" "Vla." "alto"] 32 1
              (mkInstrument "viola" "Viola" "Vla." "alto") 2 300 110
              eq_refl ltac:(lia)) as (_ & Hm & Hi & _ & Hhit).
  eexists. split; [apply Hhit; vm_compute; reflexivity|].
  split; [exact Hi | exact Hm].
Defined.

(** ** Beginner view: blocks and pointer *)

Lemma beginner_heights_apart (p r : string) :
  p ∈ BEGINNER_PITCHES -> r ∈ BEGINNER_PITCHES -> p <> r ->
  16 <= Qabs (pitchToY r bgTopY bgLineSpacing
              - pitchToY p bgTopY bgLineSpacing).
Proof.
  unfold BEGINNER_PITCHES. rewrite !elem_of_cons, !elem_of_nil.
  intros [->|[->|[->|[->|[->|[->|[->|[->|[]]]]]]]]]
         [->|[->|[->|[->|[->|[->|[->|[->|[]]]]]]]]] H;
    try congruence; vm_compute; discriminate.
Qed.

Lemma beginner_pitch_own (p : string) :
  p ∈ BEGINNER_PITCHES -> inherited p = false.
Proof.
  unfold BEGINNER_PITCHES. rewrite !elem_of_cons, elem_of_nil.
  intros [->|[->|[->|[->|[->|[->|[->|[->|[]]]]]]]]]; reflexivity.
Qed.

Lemma yToPitch_near (p : string) (y : Q) :
  p ∈ BEGINNER_PITCHES ->
  Qabs (y - pitchToY p bgTopY bgLineSpacing) < 8 ->
  yToPitch y bgTopY bgLineSpacing = p.
Proof.
  intros Hp Hnear.
  destruct (yToPitch_nearest y bgTopY bgLineSpacing) as [Hr Hmin].
  specialize (Hmin p Hp).
  set (r := yToPitch y bgTopY bgLineSpacing) in *.
  destruct (decide (r = p)) as [E|Hne]; [exact E|]. exfalso.
  pose proof (beginner_heights_apart p r Hp Hr ltac:(congruence)) as Hfar.
  set (Yr := pitchToY r bgTopY bgLineSpacing) in *.
  set (Yp := pitchToY p bgTopY bgLineSpacing) in *.
  apply Qabs_Qlt_condition in Hnear.
  assert (Hr8 : Qabs (Yr - y) < 8).
  { eapply Qle_lt_trans; [exact Hmin|].
    apply Qabs_Qlt_condition. lra. }
  apply Qabs_Qlt_condition in Hr8.
  assert (Hclose : Qabs (Yr - Yp) < 16) by (apply Qabs_Qlt_condition; lra).
  lra.
Qed.

(** X23. The pointer addresses the cell a block is drawn in.  In a measure
    of [b >= 1] beats, for a whole beat [k] of the measure and a beginner
    pitch [p], a pointer inside the horizontal extent of the block
    [_drawBlock] draws for a quarter note at beat [k], and less than half a
    pitch step (8 pixels) from the block's centre line, is read by
    [_getPos] as beat [k] and pitch [p]. *)
Theorem pointer_addresses_drawn_cell (bg : Beginner) (clientWidth mx my : Q)
    (b k : Z) (p : string) (noteId : string) :
  bg_hasLayout bg = true ->
  score_beatsNum (bg_score bg) == inject_Z b -> (1 <= k <= b)%Z ->
  p ∈ BEGINNER_PITCHES ->
  let note := mkNote noteId (bg_currentInstrument bg) p
                (bg_currentMeasure bg) (inject_Z k) "quarter" false None
                "mf" None in
  exists x y w h,
    drawBlock clientWidth (bg_score bg) note = Some (x, y, w, h)
    /\ (x < mx -> mx < x + w ->
        Qabs (my - (y + h / 2)) < 8 ->
        exists beat, pointerPos bg clientWidth mx my = Some (beat, p)
                     /\ beat == inject_Z k).
Proof.
  intros Hlay HB Hk Hp. cbv zeta. unfold drawBlock. cbn [note_beat note_pitch
    note_duration].
  change (beatsOr 1 "quarter") with (Num 1).
  rewrite (beginner_pitch_own p Hp).
  eexists _, _, _, _. split; [reflexivity|]. intros Hx1 Hx2 Hy.
  set (B := score_beatsNum (bg_score bg)) in *.
  assert (Hb : (1 <= b)%Z) by lia.
  assert (HB1 : 1 <= B).
  { rewrite HB. change 1 with (inject_Z 1). rewrite <- Zle_Qle. exact Hb. }
  set (bw := bgBeatWidth clientWidth (bg_score bg)) in *.
  assert (Hbw : 0 < bw).
  { unfold bw, bgBeatWidth. apply Qlt_shift_div_l; [fold B; lra|].
    pose proof (Qmax_upper clientWidth 600).
    unfold bgLeftMargin, bgRightMargin. lra. }
  unfold pointerPos, getPos. rewrite Hlay. fold bw. fold B.
  unfold bgLeftMargin in *.
  set (q := (mx - 60) / bw).
  assert (Eq : mx - 60 == q * bw) by (unfold q; field; lra).
  assert (Hq1 : inject_Z k - 1 < q).
  { apply (Qmult_lt_r _ _ bw Hbw). lra. }
  assert (Hq2 : q < inject_Z k).
  { apply (Qmult_lt_r _ _ bw Hbw). lra. }
  assert (Hfloor : Qfloor q = (k - 1)%Z).
  { pose proof (Qfloor_le q) as Hlo. pose proof (Qlt_floor q) as Hhi.
    set (f := Qfloor q) in *.
    rewrite inject_Z_plus in Hhi. change (inject_Z 1) with 1 in Hhi.
    assert (H1 : inject_Z f < inject_Z k) by lra.
    assert (H2 : inject_Z k < inject_Z (f + 2)).
    { rewrite inject_Z_plus. change (inject_Z 2) with 2. lra. }
    rewrite <- Zlt_Qlt in H1, H2. lia. }
  rewrite Hfloor.
  assert (Hpitch : yToPitch my bgTopY bgLineSpacing = p).
  { apply yToPitch_near; [exact Hp|].
    assert (E : pitchToY p bgTopY bgLineSpacing - 10 + 20 / 2
                == pitchToY p bgTopY bgLineSpacing) by field.
    rewrite E in Hy. exact Hy. }
  rewrite Hpitch. eexists. split; [reflexivity|].
  assert (Ek : inject_Z (k - 1) + 1 == inject_Z k).
  { unfold Qeq. cbn [Qplus inject_Z Qnum Qden]. lia. }
  assert (HkB : inject_Z k <= B).
  { rewrite HB. rewrite <- Zle_Qle. lia. }
  assert (Hk1 : 1 <= inject_Z k).
  { change 1 with (inject_Z 1). rewrite <- Zle_Qle. lia. }
  unfold Qmax, Qmin.
  destruct (Qle_bool B (inject_Z (k - 1) + 1)) eqn:E1.
  - apply Qle_bool_iff in E1.
    destruct (Qle_bool 1 B) eqn:E2; [lra|].
    exfalso. apply Qle_bool_iff in HB1. congruence.
  - destruct (Qle_bool 1 (inject_Z (k - 1) + 1)) eqn:E2; [exact Ek|].
    exfalso. assert (H : Qle_bool 1 (inject_Z (k - 1) + 1) = true)
      by (apply Qle_bool_iff; lra). congruence.
Qed.

Lemma pointer_addresses_drawn_cell_witness :
  exists beat, pointerPos (beginnerOn []) 680 300 75 = Some (beat, "F4"%string)
               /\ beat == inject_Z 2.
Proof.
  destruct (pointer_addresses_drawn_cell (beginnerOn []) 680 300 75 4 2
              "F4" "n1" eq_refl eq_refl ltac:(lia)) as
    (x & y & w & h & Hd & H).
  - unfold BEGINNER_PITCHES. rewrite !elem_of_cons. tauto.
  - vm_compute in Hd. injection Hd as <- <- <- <-.
    apply H; vm_compute; reflexivity.
Defined.
